(** * omnivore-sync: the plugin entry point (src/index.ts)

  A shallow embedding of the Joplin plugin's entry module: the heading
  rule added to the Turndown service, the two commands ("sync" and
  "reset sync data") and the scheduled sync set up from the
  [syncInterval] setting.

  - JavaScript strings that the code inspects character by character
    (the heading content, the node name) are lists of UTF-16 code units.
  - Setting keys, messages and setting values are Rocq strings; where a
    setting value is read as a number its characters are taken as code
    units.
  - Number values are IEEE 754 binary64 numbers, in the Standard
    Library's specification of floating-point arithmetic.
  - The settings store is a finite map from keys to values.
  - An [async] function is a tree of host calls: every [await] of a host
    call is a suspension point, and the event loop resumes a suspended
    task when the host settles the call. *)

From Stdlib Require Import ZArith NArith Ascii String List Bool Lia SpecFloat.
From stdpp Require Import base option list gmap strings.

#[local] Open Scope N_scope.

(** ** Part 1: strings of code units *)

Module JsString.

(** A JavaScript string: a sequence of UTF-16 code units. *)
Definition t : Type := list N.

Definition of_string (s : string) : t :=
  List.map N_of_ascii (list_ascii_of_string s).

Definition lbracket : N := 91.   (* [ *)
Definition rbracket : N := 93.   (* ] *)
Definition lparen   : N := 40.   (* ( *)
Definition rparen   : N := 41.   (* ) *)
Definition hash     : N := 35.   (* # *)
Definition space    : N := 32.
Definition newline  : N := 10.

(** [WhiteSpace] and [LineTerminator] code units of ECMAScript, the
    ones [String.prototype.trim] strips. *)
Definition is_white_space (c : N) : bool :=
  ((9 <=? c) && (c <=? 13))
  || (c =? 32) || (c =? 160) || (c =? 5760)
  || ((8192 <=? c) && (c <=? 8202))
  || (c =? 8232) || (c =? 8233) || (c =? 8239) || (c =? 8287)
  || (c =? 12288) || (c =? 65279).

Fixpoint trimStart (s : t) : t :=
  match s with
  | c :: s' => if is_white_space c then trimStart s' else s
  | [] => []
  end.

Definition trimEnd (s : t) : t := reverse (trimStart (reverse s)).

(** [s.trim()] *)
Definition trim (s : t) : t := trimEnd (trimStart s).

(** [c.repeat(n)] for a one-unit string [c]. *)
Definition repeat (c : N) (n : nat) : t := List.repeat c n.

(** [s.charAt(i)]: the one-unit string at index [i], or the empty
    string when [i] is out of range. *)
Definition charAt (i : nat) (s : t) : t :=
  match s !! i with
  | Some c => [c]
  | None => []
  end.

Definition is_digit (c : N) : bool := (48 <=? c) && (c <=? 57).

(** [Number(s)] on the strings [charAt] can return: the empty string and
    white space are 0, a decimal digit is its value, anything else is
    NaN ([None]). *)
Definition Number (s : t) : option nat :=
  match trim s with
  | [] => Some 0%nat
  | [c] => if is_digit c then Some (N.to_nat (c - 48)) else None
  | _ => None
  end.

(** The count [String.prototype.repeat] uses: NaN counts as 0. *)
Definition repeat_count (n : option nat) : nat := default 0%nat n.

End JsString.

Abbreviation jsstring := JsString.t.

(** ** Part 2: Number values *)

Module JsNumber.
Import JsString.

#[local] Open Scope Z_scope.

(** A Number value is an IEEE 754 binary64 floating-point number: a
    signed zero, a signed infinity, NaN, or a sign, a mantissa and a
    binary exponent. *)
Definition t : Type := spec_float.

Definition prec : Z := 53.
Definition emax : Z := 1024.

Definition NaN : t := S754_nan.
Definition Infinity : t := S754_infinity false.

(** The Number value for the integer [z]: the nearest binary64, ties to
    even. *)
Definition of_Z (z : Z) : t := binary_normalize prec emax z 0 false.

(** The Number value for [m × 10^k], where [m] is not negative: the
    nearest binary64, ties to even. With a negative [k] the quotient of
    [m] by [10^(-k)] is handed to the rounding together with the position
    of the remainder. (ECMAScript lets an implementation ignore the digits
    after the twentieth; engines round the exact value, as is done
    here.) *)
Definition RoundMVResult (m k : Z) : t :=
  if k <? 0 then
    let '(q, e, l) := SFdiv_core_binary prec emax m 0 (10 ^ (- k)) 0 in
    binary_round_aux prec emax false q e l
  else of_Z (m * 10 ^ k).

(** [x * y] *)
Definition mul (x y : t) : t := SFmul prec emax x y.

(** [x < y] *)
Definition ltb (x y : t) : bool := SFltb x y.

(** [-x] *)
Definition opp (x : t) : t := SFopp x.

(** *** StringToNumber *)

(** The value of [c] as a digit of a hexadecimal literal. *)
Definition digit_value (c : N) : option Z :=
  if is_digit c then Some (Z.of_N c - 48)
  else if (N.leb 97 c && N.leb c 102)%bool then Some (Z.of_N c - 87)
  else if (N.leb 65 c && N.leb c 70)%bool then Some (Z.of_N c - 55)
  else None.

(** The mathematical value of a sequence of digits in [radix], after the
    digits read so far, whose value is [acc]. *)
Fixpoint MV (radix : Z) (ds : jsstring) (acc : Z) : option Z :=
  match ds with
  | [] => Some acc
  | c :: ds' =>
      match digit_value c with
      | Some d => if d <? radix then MV radix ds' (acc * radix + d) else None
      | None => None
      end
  end.

(** The decimal digits at the front of [s], and what follows them. *)
Fixpoint span_digits (s : jsstring) : jsstring * jsstring :=
  match s with
  | c :: s' =>
      if is_digit c then let '(ds, r) := span_digits s' in (c :: ds, r)
      else ([], s)
  | [] => ([], [])
  end.

(** [0b], [0o] or [0x] (in either case) and one or more digits of that
    radix. *)
Definition NonDecimalIntegerLiteral (s : jsstring) : option Z :=
  match s with
  | 48%N :: c :: d :: ds =>
      if ((c =? 98) || (c =? 66))%N then MV 2 (d :: ds) 0
      else if ((c =? 111) || (c =? 79))%N then MV 8 (d :: ds) 0
      else if ((c =? 120) || (c =? 88))%N then MV 16 (d :: ds) 0
      else None
  | _ => None
  end.

(** An optional sign and one or more decimal digits. *)
Definition SignedInteger (s : jsstring) : option Z :=
  let '(negative, ds) :=
    match s with
    | 43%N :: r => (false, r)
    | 45%N :: r => (true, r)
    | _ => (false, s)
    end in
  match ds with
  | [] => None
  | _ => n ← MV 10 ds 0; Some (if negative : bool then - n else n)
  end.

(** [Infinity], or decimal digits with an optional fraction and an
    optional exponent; one of the integer part and the fraction may be
    missing. *)
Definition StrUnsignedDecimalLiteral (s : jsstring) : option t :=
  if bool_decide (s = of_string "Infinity") then Some Infinity
  else
    let '(int, r1) := span_digits s in
    let '(frac, r2) :=
      match r1 with
      | 46%N :: r => span_digits r
      | _ => ([], r1)
      end in
    match int ++ frac with
    | [] => None
    | ds =>
        exponent ← match r2 with
                   | [] => Some 0
                   | c :: r =>
                       if ((c =? 101) || (c =? 69))%N then SignedInteger r
                       else None
                   end;
        m ← MV 10 ds 0;
        Some (RoundMVResult m (exponent - Z.of_nat (length frac)))
    end.

Definition StrDecimalLiteral (s : jsstring) : option t :=
  match s with
  | 43%N :: r => StrUnsignedDecimalLiteral r
  | 45%N :: r => opp <$> StrUnsignedDecimalLiteral r
  | _ => StrUnsignedDecimalLiteral s
  end.

(** [StringToNumber]: white space around the literal is skipped, the
    empty text is 0, and a text that is no numeric literal is NaN. A
    literal is a binary, octal or hexadecimal integer without a sign, or
    a decimal literal with an optional sign. *)
Definition StringToNumber (s : jsstring) : t :=
  match trim s with
  | [] => of_Z 0
  | text =>
      match NonDecimalIntegerLiteral text with
      | Some n => of_Z n
      | None => default NaN (StrDecimalLiteral text)
      end
  end.

(** [0 < x] *)
Definition positive (x : t) : bool := ltb (of_Z 0) x.

(** The exponent of a finite number is not below that of the subnormal
    numbers. *)
Definition bounded_below (x : t) : Prop :=
  match x with
  | S754_finite _ _ e => -1074 ≤ e
  | _ => True
  end.

End JsNumber.

(** ** Part 3: the heading rule of the Turndown service *)

Module Heading.
Import JsString.

(** The part of a DOM node the rule reads, and the rest of it. *)
Record Node : Type := {
  nodeName : jsstring;
  outerHTML : jsstring
}.

(** The options object Turndown hands to every replacement function;
    the service is created with [headingStyle: 'atx'] and
    [codeBlockStyle: 'fenced']. *)
Record Options : Type := {
  headingStyle : string;
  codeBlockStyle : string
}.

Definition turndownOptions : Options :=
  {| headingStyle := "atx"; codeBlockStyle := "fenced" |}.

(** [filter: ['h1', 'h2', 'h3', 'h4', 'h5', 'h6']] *)
Definition filter : list jsstring :=
  List.map of_string ["h1"; "h2"; "h3"; "h4"; "h5"; "h6"]%string.

(** The longest run of code units other than [)] at the front of [s]
    (the greedy [[^)]] loop), and what follows it. *)
Fixpoint span_target (s : jsstring) : jsstring * jsstring :=
  match s with
  | c :: s' =>
      if c =? rparen then ([], s)
      else let '(t, r) := span_target s' in (c :: t, r)
  | [] => ([], [])
  end.

(** A match of [/\[]\([^)]+\)/] anchored at the front of [s]: the
    matched text and the text after it. The class excludes [)], so the
    greedy loop ends at the first [)] and backtracking into it finds no
    other match: there is at most one match at a position. *)
Definition match_remnant (s : jsstring) : option (jsstring * jsstring) :=
  match s with
  | c0 :: c1 :: c2 :: s' =>
      if (c0 =? lbracket) && (c1 =? rbracket) && (c2 =? lparen) then
        match span_target s' with
        | (c :: t, d :: rest) =>
            (* [d] is the [)] that ends the run *)
            Some (c0 :: c1 :: c2 :: (c :: t) ++ [d], rest)
        | _ => None
        end
      else None
  | _ => None
  end.

(** The scan of [content.replace(/.../g, '')], from index 0: at each
    position, a match is dropped whole and the scan goes on after it
    ([skip] counts the code units of the current match still to drop); a
    code unit at which no match starts is kept. *)
Fixpoint replace_scan (skip : nat) (s : jsstring) : jsstring :=
  match s with
  | [] => []
  | c :: s' =>
      match skip with
      | S n => replace_scan n s'
      | O =>
          match match_remnant s with
          | Some (m, _) => replace_scan (pred (length m)) s'
          | None => c :: replace_scan 0 s'
          end
      end
  end.

(** [content.replace(/\[]\([^)]+\)/g, '')] *)
Definition replace_remnants (content : jsstring) : jsstring :=
  replace_scan 0 content.

(** The replacement function of the rule. *)
Definition replacement (content : jsstring) (node : Node) (options : Options)
  : jsstring :=
  let hLevel := Number (charAt 1 (nodeName node)) in
  let cleanContent := replace_remnants content in
  [newline; newline] ++ repeat hash (repeat_count hLevel) ++ [space]
    ++ trim cleanContent ++ [newline; newline].

(** The tag name of an HTML heading element of level [n]. *)
Definition heading_tag (n : nat) : jsstring :=
  of_string "H" ++ [48 + N.of_nat n].

(** ASCII lower-casing, which is all [toLowerCase] does on tag names. *)
Definition toLowerCase (s : jsstring) : jsstring :=
  List.map (fun c => if (65 <=? c) && (c <=? 90) then c + 32 else c) s.

(** Turndown applies a rule with an array filter to the nodes whose
    lower-cased name is in the array. *)
Definition rule_applies (node : Node) : bool :=
  bool_decide (toLowerCase (nodeName node) ∈ filter).

(** The text [[](target)]. *)
Definition remnant (target : jsstring) : jsstring :=
  [lbracket; rbracket; lparen] ++ target ++ [rparen].

(** No code unit of [s] is [)]. *)
Definition no_rparen (s : jsstring) : bool :=
  forallb (λ c, negb (c =? rparen)) s.

(** [m] is a text the pattern matches: [[](], one or more code units
    other than [)], and [)]. *)
Definition is_remnant (m : jsstring) : Prop :=
  ∃ c t, no_rparen (c :: t) = true ∧ m = remnant (c :: t).

(** The text [[]()], a remnant with nothing between the parentheses. *)
Definition empty_remnant : jsstring := [lbracket; rbracket; lparen; rparen].

(** [s] has a suffix that opens a remnant and never closes it. *)
Fixpoint open_remnant (s : jsstring) : bool :=
  match s with
  | [] => false
  | _ :: s' =>
      match s with
      | c0 :: c1 :: c2 :: x =>
          (c0 =? lbracket) && (c1 =? rbracket) && (c2 =? lparen)
          && no_rparen x
      | _ => false
      end || open_remnant s'
  end.

(** [s] has an opening bracket directly followed by another opening
    bracket, or by a closing and then an opening bracket. *)
Fixpoint bracket_before_bracket (s : jsstring) : bool :=
  match s with
  | [] => false
  | _ :: s' =>
      match s with
      | c0 :: c1 :: rest =>
          (c0 =? lbracket)
          && ((c1 =? lbracket)
              || (c1 =? rbracket) && bool_decide (head rest = Some lbracket))
      | _ => false
      end || bracket_before_bracket s'
  end.

(** A heading element of level [n], as the HTML parser hands it over. *)
Definition heading_element (n : nat) : Node :=
  {| nodeName := heading_tag n; outerHTML := [] |}.

(** Some text contains a match of the pattern. *)
Fixpoint has_remnant (s : jsstring) : bool :=
  match s with
  | [] => false
  | _ :: s' =>
      match match_remnant s with
      | Some _ => true
      | None => has_remnant s'
      end
  end.

End Heading.

(** ** Part 4: the host, asynchronous tasks and the event loop *)

Module Plugin.

#[local] Open Scope Z_scope.
#[local] Open Scope string_scope.

(** *** Values held by settings *)

(** A string, or the Number value of an integer (the settings of the
    plugin that hold numbers hold integers). *)
Inductive Value : Type :=
| VString (s : string)
| VNumber (n : Z).

#[global] Instance Value_eq_dec : EqDecision Value.
Proof. solve_decision. Defined.

(** A Number value. *)
Definition Num : Type := JsNumber.t.

(** [ToBoolean]: the empty string and 0 are falsy. *)
Definition truthy (v : Value) : bool :=
  match v with
  | VString s => negb (String.eqb s "")
  | VNumber n => negb (Z.eqb n 0)
  end.

(** [ToNumber], as the comparison and the product below apply it. *)
Definition ToNumber (v : Value) : Num :=
  match v with
  | VNumber n => JsNumber.of_Z n
  | VString s => JsNumber.StringToNumber (JsString.of_string s)
  end.

(** [v > n], for an integer literal [n]: false when [v] is NaN. *)
Definition js_gt (v : Value) (n : Z) : bool :=
  JsNumber.ltb (JsNumber.of_Z n) (ToNumber v).

(** [v * 60 * 1000] *)
Definition minutes_to_ms (v : Value) : Num :=
  JsNumber.mul (JsNumber.mul (ToNumber v) (JsNumber.of_Z 60)) (JsNumber.of_Z 1000).

#[global] Arguments js_gt : simpl never.
#[global] Arguments minutes_to_ms : simpl never.

(** *** Tasks *)

(** What [new OmnivoreClient(apiKey)] holds. *)
Record OmnivoreClient : Type := { apiKey : Value }.

(** An [async] function body. The first group of constructors are the
    awaited host calls, at which the task is suspended until the host
    settles the call; the second group runs without suspension. The last
    two hold the Number expressions of the module, evaluated when the
    task reaches them: [setInterval(callback, minutes * 60 * 1000)] and
    [if (v > n) k1 else k2]. *)
Inductive Task : Type :=
| Return
| SettingsValue (key : string) (k : Value -> Task)
| SettingsSetValue (key : string) (v : Value) (k : Task)
| ShowMessageBox (message : string) (k : Z -> Task)
| SyncArticles (client : OmnivoreClient) (k : Task)
| RegisterSection (name : string) (k : Task)
| RegisterSettings (items : list (string * Value)) (k : Task)
| RegisterCommand (name : string) (execute : Task) (k : Task)
| CreateMenuItem (name command : string) (k : Task)
| OnChange (handler : Task) (k : Task)
| ConsoleLog (message : string) (k : Task)
| ConsoleError (message : string) (k : Task)
| NewOmnivoreClient (key : Value) (k : OmnivoreClient -> Task)
| SetInterval (callback : Task) (minutes : Value) (k : Task)
| IfGreater (v : Value) (n : Z) (k1 k2 : Task).

Record Timer : Type := { callback : Task; delay : Num }.

(** What the plugin did, in order. *)
Inductive Action : Type :=
| Logged (message : string)
| LoggedError (message : string)
| DialogShown (message : string)
| ClientConstructed (key : Value)
| SyncStarted (client : OmnivoreClient)
| SyncSettled (client : OmnivoreClient)
| Rejected (key : string).

(** The host application as the plugin sees it. *)
Record Host : Type := {
  settings : gmap string Value;
  sections : list string;
  commands : gmap string Task;
  menuItems : list (string * string);
  listeners : list Task;
  timers : list Timer;
  actions : list Action
}.

Definition with_settings (f : gmap string Value -> gmap string Value)
    (h : Host) : Host :=
  {| settings := f (settings h); sections := sections h;
     commands := commands h; menuItems := menuItems h;
     listeners := listeners h; timers := timers h; actions := actions h |}.

Definition record (a : Action) (h : Host) : Host :=
  {| settings := settings h; sections := sections h;
     commands := commands h; menuItems := menuItems h;
     listeners := listeners h; timers := timers h;
     actions := actions h ++ [a] |}.

Definition add_timer (tm : Timer) (h : Host) : Host :=
  {| settings := settings h; sections := sections h;
     commands := commands h; menuItems := menuItems h;
     listeners := listeners h; timers := timers h ++ [tm];
     actions := actions h |}.

Definition add_section (name : string) (h : Host) : Host :=
  {| settings := settings h; sections := sections h ++ [name];
     commands := commands h; menuItems := menuItems h;
     listeners := listeners h; timers := timers h; actions := actions h |}.

Definition add_command (name : string) (t : Task) (h : Host) : Host :=
  {| settings := settings h; sections := sections h;
     commands := <[name := t]> (commands h); menuItems := menuItems h;
     listeners := listeners h; timers := timers h; actions := actions h |}.

Definition add_menuItem (name command : string) (h : Host) : Host :=
  {| settings := settings h; sections := sections h;
     commands := commands h; menuItems := menuItems h ++ [(name, command)];
     listeners := listeners h; timers := timers h; actions := actions h |}.

Definition add_listener (t : Task) (h : Host) : Host :=
  {| settings := settings h; sections := sections h;
     commands := commands h; menuItems := menuItems h;
     listeners := listeners h ++ [t]; timers := timers h;
     actions := actions h |}.

(** Runs a task up to its next awaited host call. A call is issued at
    the moment it is reached: [syncArticles(...)] starts the run and a
    dialog is shown before the task is suspended. The delay of a timer
    and the test on the interval are computed here, on the value the task
    has read. *)
Fixpoint drive (t : Task) (h : Host) : Host * Task :=
  match t with
  | ConsoleLog m k => drive k (record (Logged m) h)
  | ConsoleError m k => drive k (record (LoggedError m) h)
  | NewOmnivoreClient key k =>
      drive (k {| apiKey := key |}) (record (ClientConstructed key) h)
  | SetInterval cb minutes k =>
      drive k (add_timer {| callback := cb; delay := minutes_to_ms minutes |} h)
  | IfGreater v n k1 k2 => if js_gt v n then drive k1 h else drive k2 h
  | SyncArticles c _ => (record (SyncStarted c) h, t)
  | ShowMessageBox m _ => (record (DialogShown m) h, t)
  | _ => (h, t)
  end.

(** The host settles the call a suspended task awaits, and the task runs
    on to its next awaited call. [answer] is the button of a dialog.
    Registered settings keep a stored value and take the registered one
    otherwise; reading a setting that does not exist rejects. *)
Definition settle (answer : Z) (t : Task) (h : Host) : option (Host * Task) :=
  match t with
  | SettingsValue key k =>
      match settings h !! key with
      | Some v => Some (drive (k v) h)
      | None => Some (record (Rejected key) h, Return)
      end
  | SettingsSetValue key v k => Some (drive k (with_settings <[key := v]> h))
  | ShowMessageBox _ k => Some (drive (k answer) h)
  | SyncArticles c k => Some (drive k (record (SyncSettled c) h))
  | RegisterSection name k => Some (drive k (add_section name h))
  | RegisterSettings items k =>
      Some (drive k (with_settings (λ m, m ∪ list_to_map items) h))
  | RegisterCommand name execute k => Some (drive k (add_command name execute h))
  | CreateMenuItem name command k => Some (drive k (add_menuItem name command h))
  | OnChange handler k => Some (drive k (add_listener handler h))
  | _ => None
  end.

(** The plugin's tasks, each suspended at a host call or finished. *)
Record Sys : Type := { host : Host; pool : list Task }.

Definition spawn (t : Task) (s : Sys) : Sys :=
  let '(h, t') := drive t (host s) in
  {| host := h; pool := pool s ++ [t'] |}.

(** What can happen next. *)
Inductive Event : Type :=
| Execute (command : string)     (* the operator runs a command *)
| Settle (task : nat) (answer : Z) (* the host settles an awaited call *)
| Fire (timer : nat)             (* the delay of a timer has elapsed *)
| Write (key : string) (v : Value) (* the operator or a sync run stores a setting *)
| Changed.                       (* the host reports a settings change *)

Definition step (e : Event) (s : Sys) : option Sys :=
  match e with
  | Execute name =>
      t ← commands (host s) !! name; Some (spawn t s)
  | Settle j answer =>
      t ← pool s !! j;
      '(h, t') ← settle answer t (host s);
      Some {| host := h; pool := <[j := t']> (pool s) |}
  | Fire i =>
      tm ← timers (host s) !! i; Some (spawn (callback tm) s)
  | Write key v =>
      Some {| host := with_settings <[key := v]> (host s); pool := pool s |}
  | Changed =>
      Some (foldl (λ s' t, spawn t s') s (listeners (host s)))
  end.

Fixpoint run (es : list Event) (s : Sys) : option Sys :=
  match es with
  | [] => Some s
  | e :: es' => s' ← step e s; run es' s'
  end.

(** A task suspended in [await syncArticles(...)] is a sync run in
    progress. *)
Definition awaits_sync (t : Task) : bool :=
  match t with
  | SyncArticles _ _ => true
  | _ => false
  end.

Definition in_flight (s : Sys) : nat :=
  length (List.filter awaits_sync (pool s)).

End Plugin.

(** ** Part 5: the plugin *)

Module Omnivore.
Import Plugin.

#[local] Open Scope Z_scope.
#[local] Open Scope string_scope.

Definition nl : string := String "010"%char "".

Inductive LogLevel : Type := ErrorOnly | ErrorsAndWarnings | Debug.

Definition LogLevel_value (l : LogLevel) : string :=
  match l with
  | ErrorOnly => "error"
  | ErrorsAndWarnings => "warn"
  | Debug => "debug"
  end.

(** The [value] of each registered setting (labels, descriptions and
    the other presentation fields are left out). The description of
    [syncInterval] reads: 0 for manual sync only. *)
Definition settingItems : list (string * Value) :=
  [ ("omnivoreApiKey", VString "");
    ("syncType", VString "all");
    ("syncInterval", VString "0");
    ("targetNotebook", VString "Omnivore");
    ("userTimezone", VString "local");
    ("highlightTemplateChoice", VString "default");
    ("highlightSyncPeriod", VNumber 14);
    ("highlightTitlePrefix", VString "Omnivore Highlights");
    ("logLevel", VString (LogLevel_value ErrorsAndWarnings));
    ("lastSyncDate", VString "");
    ("syncedItems", VString "[]");
    ("syncedHighlights", VString "{}") ].

Definition reset_question : string :=
  "Are you sure you want to reset the Omnivore sync data? This will clear the last sync date, all synced item IDs, and synced highlights. The next sync will fetch all articles and highlights again."
  ++ nl ++ nl ++ "Press OK to confirm, or Cancel to abort.".

Definition reset_done : string :=
  "Omnivore sync data has been reset. The next sync will fetch all articles and highlights.".

Definition key_not_set : string :=
  "Omnivore API key not set. Please set your API key in the plugin settings.".

(** The [execute] of the command [resetOmnivoreSyncData]. *)
Definition resetOmnivoreSyncData : Task :=
  ShowMessageBox reset_question (λ result,
    if Z.eqb result 0 then
      SettingsSetValue "lastSyncDate" (VString "") (
      SettingsSetValue "syncedItems" (VString "[]") (
      SettingsSetValue "syncedHighlights" (VString "{}") (
      ConsoleLog "Omnivore sync data has been reset." (
      ShowMessageBox reset_done (λ _, Return)))))
    else
      ConsoleLog "Reset operation cancelled by user." Return).

(** The [execute] of the command [syncOmnivoreArticles]. *)
Definition syncOmnivoreArticles : Task :=
  SettingsValue "omnivoreApiKey" (λ apiKey,
    if negb (truthy apiKey) then
      ConsoleError key_not_set Return
    else
      NewOmnivoreClient apiKey (λ client,
      SyncArticles client Return)).

(** The callback handed to [setInterval]. *)
Definition scheduled_callback : Task :=
  SettingsValue "omnivoreApiKey" (λ apiKey,
    if truthy apiKey then
      NewOmnivoreClient apiKey (λ client,
      SyncArticles client Return)
    else Return).

(** [await setupScheduledSync()], followed by [k]. *)
Definition setupScheduledSync (k : Task) : Task :=
  SettingsValue "syncInterval" (λ interval,
    IfGreater interval 0
      (SetInterval scheduled_callback interval k)
      k).

(** The listener given to [joplin.settings.onChange]. *)
Definition onChange_listener : Task := setupScheduledSync Return.

Definition onStart : Task :=
  RegisterSection "omnivoreSync" (
  RegisterSettings settingItems (
  RegisterCommand "resetOmnivoreSyncData" resetOmnivoreSyncData (
  RegisterCommand "syncOmnivoreArticles" syncOmnivoreArticles (
  CreateMenuItem "syncOmnivoreArticlesMenuItem" "syncOmnivoreArticles" (
  CreateMenuItem "resetOmnivoreSyncDataMenuItem" "resetOmnivoreSyncData" (
  setupScheduledSync (
  OnChange onChange_listener (
  ConsoleLog "Omnivore Sync plugin started" Return)))))))).

(** The host before the plugin is loaded, with the settings it has
    stored from earlier sessions. *)
Definition blank (stored : gmap string Value) : Host :=
  {| settings := stored; sections := []; commands := ∅; menuItems := [];
     listeners := []; timers := []; actions := [] |}.

(** The host calls [onStart]. *)
Definition load (stored : gmap string Value) : Sys :=
  spawn onStart {| host := blank stored; pool := [] |}.

(** The events that carry [onStart] to its end when nothing else
    happens: its eight awaited calls are settled one after the other. *)
Definition startup : list Event := List.repeat (Settle 0 0) 8.

(** The three settings that hold the sync state. *)
Definition sync_state_keys : list string :=
  ["lastSyncDate"; "syncedItems"; "syncedHighlights"].

(** The settings right after the first installation: every setting at
    its registered value. *)
Definition first_install : gmap string Value := list_to_map settingItems.

(** The part of the store that holds the sync state. *)
Definition sync_state (m : gmap string Value) : gmap string Value :=
  filter (λ kv, kv.1 ∈ sync_state_keys) m.

(** The store after the three writes of the reset. *)
Definition cleared (m : gmap string Value) : gmap string Value :=
  <["syncedHighlights" := VString "{}"]>
    (<["syncedItems" := VString "[]"]> (<["lastSyncDate" := VString ""]> m)).

(** The operator runs the reset as task [j] and presses OK (button 0);
    the host then settles the three writes. *)
Definition reset_confirmed (j : nat) (a1 a2 a3 : Z) : list Event :=
  [Execute "resetOmnivoreSyncData"; Settle j 0; Settle j a1; Settle j a2;
   Settle j a3].

(** The system after [es], or [s] itself when some event of [es] cannot
    happen. *)
Definition after (es : list Event) (s : Sys) : Sys := default s (run es s).

(** A first installation, once [onStart] has finished. *)
Definition installed : Sys := after startup (load ∅).

(** The operator enters an API key and a sync interval; the host reports
    the change and the listener (task 1) runs. *)
Definition configure (key : string) (minutes : Z) : list Event :=
  [Write "omnivoreApiKey" (VString key); Write "syncInterval" (VNumber minutes);
   Changed; Settle 1 0].

(** The operator edits the interval again; the listener runs as task 2. *)
Definition reconfigure (minutes : Z) : list Event :=
  [Write "syncInterval" (VNumber minutes); Changed; Settle 2 0].

(** A store with sync state from earlier runs. *)
Definition synced_before : gmap string Value :=
  {[ "omnivoreApiKey" := VString "k";
     "lastSyncDate" := VString "2024-05-01T08:00:00Z";
     "syncedItems" := VString "[1,2]" ]}.

(** A session whose stored interval is the text [1e1], once [onStart]
    has finished. *)
Definition exponent_interval : Sys :=
  after startup (load {[ "syncInterval" := VString "1e1" ]}).

(** A session that starts with that store, once [onStart] has finished. *)
Definition returning : Sys := after startup (load synced_before).

(** A first installation with a five-minute interval and no API key. *)
Definition scheduled_without_key : Sys :=
  after (startup ++ configure "" 5) (load ∅).

(** A first installation with an API key and a five-minute interval, in
    which the operator has started a sync that has not finished yet. *)
Definition manual_run_started : list Event :=
  startup ++ configure "k" 5 ++ [Execute "syncOmnivoreArticles"; Settle 2 0].

Definition one_run_in_progress : Sys := after manual_run_started (load ∅).

(** The five-minute timer fires during that run and its callback reads
    the key. *)
Definition timer_fires : list Event := [Fire 0; Settle 3 0].

Definition two_runs_in_progress : Sys := after timer_fires one_run_in_progress.

(** A first installation with an API key whose interval was set to five
    minutes and then to [minutes]. *)
Definition interval_changed (minutes : Z) : list Event :=
  startup ++ configure "k" 5 ++ reconfigure minutes.

Definition reconfigured (minutes : Z) : Sys :=
  after (interval_changed minutes) (load ∅).

(** The operator confirms the reset in a returning session and the host
    has settled the first of the three writes. *)
Definition first_write_settled : list Event :=
  startup ++ [Execute "resetOmnivoreSyncData"; Settle 1 0; Settle 1 0].

Definition half_reset : Sys := after first_write_settled (load synced_before).


(** Every timer a task sets runs the scheduled callback at a positive
    period, and so does whatever the task registers. *)
Fixpoint sets_scheduled_timers (t : Task) : Prop :=
  match t with
  | Return => True
  | SettingsValue _ k => ∀ v, sets_scheduled_timers (k v)
  | SettingsSetValue _ _ k => sets_scheduled_timers k
  | ShowMessageBox _ k => ∀ z, sets_scheduled_timers (k z)
  | SyncArticles _ k => sets_scheduled_timers k
  | RegisterSection _ k => sets_scheduled_timers k
  | RegisterSettings _ k => sets_scheduled_timers k
  | RegisterCommand _ e k => sets_scheduled_timers e ∧ sets_scheduled_timers k
  | CreateMenuItem _ _ k => sets_scheduled_timers k
  | OnChange e k => sets_scheduled_timers e ∧ sets_scheduled_timers k
  | ConsoleLog _ k => sets_scheduled_timers k
  | ConsoleError _ k => sets_scheduled_timers k
  | NewOmnivoreClient _ k => ∀ c, sets_scheduled_timers (k c)
  | SetInterval cb minutes k =>
      cb = scheduled_callback
      ∧ JsNumber.positive (minutes_to_ms minutes) = true
      ∧ sets_scheduled_timers k
  | IfGreater v n k1 k2 =>
      (js_gt v n = true → sets_scheduled_timers k1)
      ∧ (js_gt v n = false → sets_scheduled_timers k2)
  end.

Definition scheduled_timer (tm : Timer) : Prop :=
  callback tm = scheduled_callback ∧ JsNumber.positive (delay tm) = true.

Definition plugin_host (h : Host) : Prop :=
  Forall scheduled_timer (timers h)
  ∧ map_Forall (λ _ t, sets_scheduled_timers t) (commands h)
  ∧ Forall sets_scheduled_timers (listeners h).

Definition plugin_sys (s : Sys) : Prop :=
  plugin_host (host s) ∧ Forall sets_scheduled_timers (pool s).

Definition registered_commands : gmap string Task :=
  <["syncOmnivoreArticles" := syncOmnivoreArticles]>
    (<["resetOmnivoreSyncData" := resetOmnivoreSyncData]> ∅).

Definition created_menuItems : list (string * string) :=
  [ ("syncOmnivoreArticlesMenuItem", "syncOmnivoreArticles");
    ("resetOmnivoreSyncDataMenuItem", "resetOmnivoreSyncData") ].

(** The timers [setupScheduledSync] sets when it reads [interval]. *)
Definition timers_for (interval : Value) : list Timer :=
  if js_gt interval 0
  then [{| callback := scheduled_callback; delay := minutes_to_ms interval |}]
  else [].


(** The writes of the reset: the three sync-state keys with their
    registered values. *)
Definition reset_writes : list (string * Value) :=
  [ ("lastSyncDate", VString ""); ("syncedItems", VString "[]");
    ("syncedHighlights", VString "{}") ].

(** What the host keeps of the plugin's registrations. *)
Definition registrations (h : Host)
  : list string * gmap string Task * list (string * string) * list Task :=
  (sections h, commands h, menuItems h, listeners h).

(** A task of the running plugin: it registers nothing, the only settings
    it writes are those of the reset, and the timers it sets run the
    scheduled callback. *)
Fixpoint steady (t : Task) : Prop :=
  match t with
  | Return => True
  | SettingsValue _ k => ∀ v, steady (k v)
  | SettingsSetValue key v k => (key, v) ∈ reset_writes ∧ steady k
  | ShowMessageBox _ k => ∀ z, steady (k z)
  | SyncArticles _ k => steady k
  | RegisterSection _ _ => False
  | RegisterSettings _ _ => False
  | RegisterCommand _ _ _ => False
  | CreateMenuItem _ _ _ => False
  | OnChange _ _ => False
  | ConsoleLog _ k => steady k
  | ConsoleError _ k => steady k
  | NewOmnivoreClient _ k => ∀ c, steady (k c)
  | SetInterval cb _ k => cb = scheduled_callback ∧ steady k
  | IfGreater _ _ k1 k2 => steady k1 ∧ steady k2
  end.

Definition steady_sys (s : Sys) : Prop :=
  Forall steady (pool s)
  ∧ map_Forall (λ _ t, steady t) (commands (host s))
  ∧ Forall steady (listeners (host s))
  ∧ Forall (λ tm, callback tm = scheduled_callback) (timers (host s)).

(** One step leaves the settings alone or is one write of the reset. *)
Definition settings_step (m m' : gmap string Value) : Prop :=
  m' = m ∨ ∃ kv, kv ∈ reset_writes ∧ m' = <[kv.1 := kv.2]> m.


(** [k] settings changes in a row, the listener of each running to its
    end before the next; the first listener is task [j]. *)
Fixpoint changes (j k : nat) : list Event :=
  match k with
  | O => []
  | S k' => Changed :: Settle j 0 :: changes (S j) k'
  end.

(** The host once the confirmed reset has run to its end. *)
Definition reset_host (h : Host) : Host :=
  {| settings := cleared (settings h); sections := sections h;
     commands := commands h; menuItems := menuItems h;
     listeners := listeners h; timers := timers h;
     actions := actions h
                ++ [DialogShown reset_question;
                    Logged "Omnivore sync data has been reset.";
                    DialogShown reset_done] |}.



(** The plugin's calls that reach the remote service. *)
Definition is_launch (a : Action) : bool :=
  match a with
  | ClientConstructed _ | SyncStarted _ => true
  | _ => false
  end.

Definition launches (h : Host) : list Action := List.filter is_launch (actions h).

(** A task that constructs no client, starts no sync and registers
    nothing, and whose timers run the scheduled callback. *)
Fixpoint quiet (t : Task) : Prop :=
  match t with
  | Return => True
  | SettingsValue _ k => ∀ v, quiet (k v)
  | SettingsSetValue key _ k => key ≠ "omnivoreApiKey" ∧ quiet k
  | ShowMessageBox _ k => ∀ z, quiet (k z)
  | SyncArticles _ _ => False
  | RegisterSection _ _ => False
  | RegisterSettings _ _ => False
  | RegisterCommand _ _ _ => False
  | CreateMenuItem _ _ _ => False
  | OnChange _ _ => False
  | ConsoleLog _ k => quiet k
  | ConsoleError _ k => quiet k
  | NewOmnivoreClient _ _ => False
  | SetInterval cb _ k => cb = scheduled_callback ∧ quiet k
  | IfGreater _ _ k1 k2 => quiet k1 ∧ quiet k2
  end.

(** A task that is quiet, or first reads the API key and is quiet when the
    key is empty. *)
Definition key_guarded (t : Task) : Prop :=
  quiet t
  ∨ ∃ k, t = SettingsValue "omnivoreApiKey" k
         ∧ ∀ v, truthy v = false → quiet (k v).

(** A task of the pool: key-guarded, or a run in progress after which the
    task is quiet. *)
Definition pool_guarded (t : Task) : Prop :=
  key_guarded t ∨ ∃ c k, t = SyncArticles c k ∧ quiet k.

(** The stored API key, if any, is empty. *)
Definition key_is_empty (m : gmap string Value) : Prop :=
  ∀ v, m !! "omnivoreApiKey" = Some v → truthy v = false.

Definition guarded_sys (s : Sys) : Prop :=
  Forall pool_guarded (pool s)
  ∧ map_Forall (λ _ t, key_guarded t) (commands (host s))
  ∧ Forall key_guarded (listeners (host s))
  ∧ Forall (λ tm, callback tm = scheduled_callback) (timers (host s)).

(** No event of [es] stores the API key. *)
Definition key_never_stored (es : list Event) : Prop :=
  Forall (λ e, ∀ v, e ≠ Write "omnivoreApiKey" v) es.

(** [e] stores the setting [key]. *)
Definition stores (key : string) (e : Event) : bool :=
  match e with
  | Write k _ => String.eqb k key
  | _ => false
  end.

(** The checks on a store and on a list of events that the statements
    use. *)
Definition key_empty (m : gmap string Value) : bool :=
  match m !! "omnivoreApiKey" with
  | Some v => negb (truthy v)
  | None => true
  end.

Definition key_untouched (es : list Event) : bool :=
  forallb (λ e, negb (stores "omnivoreApiKey" e)) es.

Definition interval_off (m : gmap string Value) : bool :=
  match m !! "syncInterval" with
  | Some v => negb (js_gt v 0)
  | None => true
  end.

Definition interval_untouched (es : list Event) : bool :=
  forallb (λ e, negb (stores "syncInterval" e)) es.


(** A task that sets no timer, registers nothing and does not write the
    interval. *)
Fixpoint timerless (t : Task) : Prop :=
  match t with
  | Return => True
  | SettingsValue _ k => ∀ v, timerless (k v)
  | SettingsSetValue key _ k => key ≠ "syncInterval" ∧ timerless k
  | ShowMessageBox _ k => ∀ z, timerless (k z)
  | SyncArticles _ k => timerless k
  | RegisterSection _ _ => False
  | RegisterSettings _ _ => False
  | RegisterCommand _ _ _ => False
  | CreateMenuItem _ _ _ => False
  | OnChange _ _ => False
  | ConsoleLog _ k => timerless k
  | ConsoleError _ k => timerless k
  | NewOmnivoreClient _ k => ∀ c, timerless (k c)
  | SetInterval _ _ _ => False
  | IfGreater v n k1 k2 =>
      (js_gt v n = true → timerless k1) ∧ (js_gt v n = false → timerless k2)
  end.

(** A task that sets no timer, or first reads the interval and sets no
    timer when the interval is not positive. *)
Definition interval_guarded (t : Task) : Prop :=
  timerless t
  ∨ ∃ k, t = SettingsValue "syncInterval" k
         ∧ ∀ v, js_gt v 0 = false → timerless (k v).

(** The stored interval, if any, is not positive. *)
Definition interval_is_off (m : gmap string Value) : Prop :=
  ∀ v, m !! "syncInterval" = Some v → js_gt v 0 = false.

Definition manual_sys (s : Sys) : Prop :=
  Forall interval_guarded (pool s)
  ∧ map_Forall (λ _ t, interval_guarded t) (commands (host s))
  ∧ Forall interval_guarded (listeners (host s))
  ∧ timers (host s) = [].

(** No event of [es] stores the interval. *)
Definition interval_never_stored (es : list Event) : Prop :=
  Forall (λ e, ∀ v, e ≠ Write "syncInterval" v) es.

(** The confirmed reset at its suspension points: awaiting the first,
    the second and the third write, and awaiting the dismissal of the
    closing message. *)
Definition reset_closing : Task := ShowMessageBox reset_done (λ _, Return).

Definition reset_write3 : Task :=
  SettingsSetValue "syncedHighlights" (VString "{}") (
  ConsoleLog "Omnivore sync data has been reset." reset_closing).

Definition reset_write2 : Task :=
  SettingsSetValue "syncedItems" (VString "[]") reset_write3.

Definition reset_write1 : Task :=
  SettingsSetValue "lastSyncDate" (VString "") reset_write2.

(** The suspension points of the confirmed reset, each with the keys
    whose write the host has settled by then. *)
Definition reset_stages : list (Task * list string) :=
  [ (reset_write1, []);
    (reset_write2, ["lastSyncDate"]);
    (reset_write3, ["lastSyncDate"; "syncedItems"]);
    (reset_closing, sync_state_keys);
    (Return, sync_state_keys) ].

(** The reset is at the suspension point [t] and the keys it has written
    by then hold their registered values in [m]. *)
Definition reset_progress (t : Task) (m : gmap string Value) : Prop :=
  ∃ keys, (t, keys) ∈ reset_stages
          ∧ ∀ key, key ∈ keys → m !! key = first_install !! key.

(** No event of [es] stores one of the three sync-state settings. *)
Definition sync_state_untouched (es : list Event) : bool :=
  forallb (λ e, forallb (λ key, negb (stores key e)) sync_state_keys) es.

(** A sync is running (task 1) when the operator confirms the reset
    (task 2); the run stores its cursor and settles after the reset has
    cleared the cursor, and the reset runs to its end. *)
Definition reset_during_sync : list Event :=
  startup
  ++ [Execute "syncOmnivoreArticles"; Settle 1 0;
      Execute "resetOmnivoreSyncData"; Settle 2 0; Settle 2 0;
      Write "lastSyncDate" (VString "2024-06-01T00:00:00Z"); Settle 1 0;
      Settle 2 0; Settle 2 0; Settle 2 0].

Definition reset_overtaken : Sys := after reset_during_sync (load synced_before).

(** The same, with the reset's question still showing. *)
Definition reset_asked_during_sync : list Event :=
  startup
  ++ [Execute "syncOmnivoreArticles"; Settle 1 0;
      Execute "resetOmnivoreSyncData"].

Definition reset_asked : Sys := after reset_asked_during_sync (load synced_before).

(** The operator confirms; the sync run settles while the reset is
    writing and stores nothing; the closing message is dismissed; then
    the operator starts a sync (task 3), which reads the key and calls
    [syncArticles]. *)
Definition reset_undisturbed : list Event :=
  [Settle 2 0; Settle 1 0; Settle 2 0; Write "syncType" (VString "all");
   Settle 2 0; Settle 2 0; Settle 2 0;
   Execute "syncOmnivoreArticles"; Settle 3 0].

End Omnivore.

(** ** Part 6: the heading rule as the JavaScript runtime executes it *)

Module Runtime.
Import JsString Heading.

(** A RegExp object made from the literal of the rule. Its pattern and
    its [g] flag are fixed; [lastIndex] is the mutable property that
    [exec] reads and writes on a global RegExp. *)
Record RegExpObject : Type := { lastIndex : nat }.

(** What a call of the rule could read or write: the host of the plugin
    (settings, registrations, timers, and what the plugin has done so
    far, sync runs included) and the RegExp objects allocated so far, by
    address. *)
Record World : Type := {
  joplin : Plugin.Host;
  regexps : list RegExpObject
}.

(** A computation on the world. *)
Definition M (A : Type) : Type := World → World * A.

Definition ret {A : Type} (a : A) : M A := λ w, (w, a).

Definition bind {A B : Type} (m : M A) (f : A → M B) : M B :=
  λ w, let '(w', a) := m w in f a w'.

(** Evaluating the literal [/\[]\([^)]+\)/g] makes a new object with
    [lastIndex] 0; the result is its address. *)
Definition new_RegExp : M nat :=
  λ w, ({| joplin := joplin w;
           regexps := regexps w ++ [{| lastIndex := 0 |}] |},
        length (regexps w)).

Definition get_lastIndex (r : nat) : M nat :=
  λ w, (w, from_option lastIndex 0%nat (regexps w !! r)).

Definition set_lastIndex (r i : nat) : M unit :=
  λ w, ({| joplin := joplin w;
           regexps := <[r := {| lastIndex := i |}]> (regexps w) |}, tt).

(** The first match at or after position [p], where [s] is the text from
    [p] on: the positions where it starts and ends. *)
Fixpoint find_from (p : nat) (s : jsstring) : option (nat * nat) :=
  match match_remnant s with
  | Some (m, _) => Some (p, (p + length m)%nat)
  | None =>
      match s with
      | [] => None
      | _ :: s' => find_from (S p) s'
      end
  end.

(** [RegExpBuiltinExec] on a global RegExp that is not sticky: the search
    starts at [lastIndex]; a match moves [lastIndex] to its end, a failure
    resets it to 0. *)
Definition RegExpBuiltinExec (r : nat) (str : jsstring)
  : M (option (nat * nat)) :=
  bind (get_lastIndex r) (λ i,
  match (if decide (i ≤ length str)%nat then find_from i (drop i str)
         else None) with
  | Some (p, e) => bind (set_lastIndex r e) (λ _, ret (Some (p, e)))
  | None => bind (set_lastIndex r 0) (λ _, ret None)
  end).

(** The loop of [RegExp.prototype[Symbol.replace]] that collects the
    matches of a global RegExp: it calls [exec] until that fails, and
    steps over an empty match. Every round moves [lastIndex] forward, so
    the length of the string plus one bounds the rounds. *)
Fixpoint collect (rounds : nat) (r : nat) (str : jsstring)
  : M (list (nat * nat)) :=
  match rounds with
  | O => ret []
  | S rounds' =>
      bind (RegExpBuiltinExec r str) (λ result,
      match result with
      | None => ret []
      | Some (p, e) =>
          bind (if decide (e = p) then set_lastIndex r (S e) else ret tt) (λ _,
          bind (collect rounds' r str) (λ results,
          ret ((p, e) :: results)))
      end)
  end.

(** The result string: the text between the matches, with
    [replaceValue] for each match. *)
Fixpoint splice (str : jsstring) (next : nat) (results : list (nat * nat))
    (replaceValue : jsstring) : jsstring :=
  match results with
  | [] => drop next str
  | (p, e) :: results' =>
      if decide (next ≤ p)%nat
      then take (p - next) (drop next str) ++ replaceValue
           ++ splice str e results' replaceValue
      else splice str next results' replaceValue
  end.

(** [str.replace(r, replaceValue)] for the global RegExp at address [r]
    and a replacement string without [$]: [lastIndex] is set to 0 before
    the matches are collected. *)
Definition String_replace (str : jsstring) (r : nat) (replaceValue : jsstring)
  : M jsstring :=
  bind (set_lastIndex r 0) (λ _,
  bind (collect (S (length str)) r str) (λ results,
  ret (splice str 0 results replaceValue))).

(** The replacement function of the rule, statement by statement. *)
Definition replacement_call (content : jsstring) (node : Node)
    (options : Options) : M jsstring :=
  let hLevel := Number (charAt 1 (nodeName node)) in
  bind new_RegExp (λ r,
  bind (String_replace content r []) (λ cleanContent,
  ret ([newline; newline] ++ repeat hash (repeat_count hLevel) ++ [space]
       ++ trim cleanContent ++ [newline; newline]))).

(** The world after a call: the same host and the same objects, and one
    more RegExp object, at rest. *)
Definition after_call (w : World) : World :=
  {| joplin := joplin w; regexps := regexps w ++ [{| lastIndex := 0 |}] |}.

(** The world in which the object at the end of the heap has
    [lastIndex] [i]. *)
Definition at_index (w : World) (i : nat) : World :=
  {| joplin := joplin w; regexps := regexps w ++ [{| lastIndex := i |}] |}.

(** A world in which a sync run is in progress and two RegExp objects
    are left over, in the middle of a scan. *)
Definition busy_world : World :=
  {| joplin := Plugin.host Omnivore.one_run_in_progress;
     regexps := [{| lastIndex := 12 |}; {| lastIndex := 3 |}] |}.

(** A world right after the host was started. *)
Definition fresh_world : World :=
  {| joplin := Omnivore.blank ∅; regexps := [] |}.

End Runtime.

(** ** Part 7: facts about Number values *)

Module JsNumberFacts.
Import JsString JsNumber.

#[local] Open Scope Z_scope.

Section Rounding.

Lemma digits2_pos_log2 p : Z.pos (digits2_pos p) = Z.log2 (Z.pos p) + 1.
Proof.
  assert (∀ q, digits2_pos q = Pos.size q) as E.
  { induction q as [q IH|q IH|]; cbn; by rewrite ?IH. }
  destruct p as [p|p|]; cbn; rewrite ?E; lia.
Qed.

Lemma digits2_pos_bounds p :
  2 ^ (Z.pos (digits2_pos p) - 1) ≤ Z.pos p < 2 ^ Z.pos (digits2_pos p).
Proof.
  rewrite digits2_pos_log2.
  destruct (Z.log2_spec (Z.pos p)) as [H1 H2]; [lia|].
  replace (Z.log2 (Z.pos p) + 1 - 1) with (Z.log2 (Z.pos p)) by lia.
  replace (Z.log2 (Z.pos p) + 1) with (Z.succ (Z.log2 (Z.pos p))) by lia.
  done.
Qed.

Lemma shr_1_m mrs : 0 ≤ shr_m mrs → shr_m (shr_1 mrs) = shr_m mrs / 2.
Proof.
  destruct mrs as [m r s]. cbn [shr_m]. intros Hm.
  destruct m as [|[p|p|]|p]; cbn [shr_1 shr_m]; try lia; try done.
  - rewrite Pos2Z.inj_xI. apply Z.div_unique with 1; lia.
  - rewrite Pos2Z.inj_xO. apply Z.div_unique with 0; lia.
Qed.

Lemma iter_shr_1_m p : ∀ mrs,
  0 ≤ shr_m mrs → shr_m (SpecFloat.iter_pos shr_1 p mrs) = shr_m mrs / 2 ^ Z.pos p.
Proof.
  induction p as [p IH|p IH|]; intros mrs Hm; cbn [SpecFloat.iter_pos].
  - assert (0 ≤ shr_m (shr_1 mrs)) as H1.
    { rewrite shr_1_m by done. apply Z.div_pos; lia. }
    assert (0 ≤ shr_m (SpecFloat.iter_pos shr_1 p (shr_1 mrs))) as H2.
    { rewrite IH by done. apply Z.div_pos; lia. }
    rewrite IH, IH, shr_1_m by done.
    rewrite !Z.div_div by lia. f_equal.
    rewrite (Pos2Z.inj_xI p).
    replace (2 * Z.pos p + 1) with (1 + Z.pos p + Z.pos p) by lia.
    rewrite (Z.pow_add_r 2 (1 + Z.pos p) (Z.pos p)), (Z.pow_add_r 2 1 (Z.pos p)) by lia.
    ring.
  - assert (0 ≤ shr_m (SpecFloat.iter_pos shr_1 p mrs)) as H2.
    { rewrite IH by done. apply Z.div_pos; lia. }
    rewrite IH, IH by done.
    rewrite !Z.div_div by lia. f_equal.
    rewrite (Pos2Z.inj_xO p).
    replace (2 * Z.pos p) with (Z.pos p + Z.pos p) by lia.
    rewrite (Z.pow_add_r 2 (Z.pos p) (Z.pos p)) by lia. ring.
  - by apply shr_1_m.
Qed.

Lemma shr_fexp_spec m e l :
  0 ≤ m →
  ∃ mrs k,
    shr_fexp prec emax m e l = (mrs, e + k)
    ∧ k = Z.max (fexp prec emax (Zdigits2 m + e) - e) 0
    ∧ shr_m mrs = m / 2 ^ k.
Proof.
  intros Hm. unfold shr_fexp, shr.
  assert (shr_m (shr_record_of_loc m l) = m) as E by (by destruct l as [|[]]).
  destruct (fexp prec emax (Zdigits2 m + e) - e) as [|n|n] eqn:En.
  - eexists _, 0. split_and!; [by rewrite Z.add_0_r|done|].
    by rewrite E, Z.pow_0_r, Z.div_1_r.
  - eexists _, (Z.pos n). split_and!; [done|lia|].
    rewrite iter_shr_1_m by lia. by rewrite E.
  - eexists _, 0. split_and!; [by rewrite Z.add_0_r|lia|].
    by rewrite E, Z.pow_0_r, Z.div_1_r.
Qed.

Lemma round_nearest_even_le m l : m ≤ round_nearest_even m l ≤ m + 1.
Proof. destruct l as [|[]]; cbn; try destruct (Z.even m); lia. Qed.

(** Rounding never produces a number below the subnormal range. *)
Lemma binary_round_aux_bounded s m e l :
  0 ≤ m → bounded_below (binary_round_aux prec emax s m e l).
Proof.
  intros Hm. unfold binary_round_aux.
  destruct (shr_fexp_spec m e l Hm) as (mrs1 & k1 & -> & Hk1 & Hm1).
  set (m2 := round_nearest_even _ _).
  assert (0 ≤ m2) as Hm2.
  { pose proof (round_nearest_even_le (shr_m mrs1) (loc_of_shr_record mrs1)).
    assert (0 ≤ shr_m mrs1) by (rewrite Hm1; apply Z.div_pos; lia).
    unfold m2. lia. }
  destruct (shr_fexp_spec m2 (e + k1) loc_Exact Hm2) as (mrs2 & k2 & -> & Hk2 & Hm3).
  destruct (shr_m mrs2); [done| |done].
  destruct (_ <=? _); [|done]. cbn.
  unfold fexp, SpecFloat.emin, prec, emax in *. lia.
Qed.

(** Rounding a number that is at least the least subnormal number gives
    a finite number other than 0, or infinity. *)
Lemma binary_round_aux_positive m e l :
  0 < m → -1074 < Zdigits2 m + e →
  positive (binary_round_aux prec emax false m e l) = true.
Proof.
  intros Hm Hd. unfold binary_round_aux.
  destruct (shr_fexp_spec m e l) as (mrs1 & k1 & -> & Hk1 & Hm1); [lia|].
  set (m2 := round_nearest_even _ _).
  destruct m as [|p|p]; [lia| |lia]. cbn [Zdigits2] in *.
  pose proof (digits2_pos_bounds p) as [Hp _].
  assert (0 < shr_m mrs1) as H1.
  { rewrite Hm1. apply Z.div_str_pos. split; [lia|].
    etrans; [|exact Hp]. apply Z.pow_le_mono_r; [lia|].
    unfold fexp, SpecFloat.emin, prec, emax in *. lia. }
  assert (0 < m2) as Hm2.
  { pose proof (round_nearest_even_le (shr_m mrs1) (loc_of_shr_record mrs1)).
    unfold m2. lia. }
  destruct (shr_fexp_spec m2 (e + k1) loc_Exact) as (mrs2 & k2 & -> & Hk2 & Hm3); [lia|].
  assert (0 < shr_m mrs2) as H3.
  { rewrite Hm3. destruct m2 as [|p2|p2]; [lia| |lia]. cbn [Zdigits2] in *.
    pose proof (digits2_pos_bounds p2) as [Hp2 _].
    apply Z.div_str_pos. split; [lia|].
    etrans; [|exact Hp2]. apply Z.pow_le_mono_r; [lia|].
    unfold fexp, SpecFloat.emin, prec, emax in *. lia. }
  destruct (shr_m mrs2); [lia| |lia].
  by destruct (_ <=? _).
Qed.

End Rounding.

Section Numbers.

Lemma of_Z_bounded z : bounded_below (of_Z z).
Proof.
  unfold of_Z, binary_normalize, binary_round.
  destruct z as [|p|p]; [done|..];
    destruct (shl_align _ _ _) as [mz ez]; by apply binary_round_aux_bounded.
Qed.

Lemma RoundMVResult_bounded m k : 0 ≤ m → bounded_below (RoundMVResult m k).
Proof.
  intros Hm. unfold RoundMVResult. destruct (k <? 0) eqn:Ek; [|apply of_Z_bounded].
  unfold SFdiv_core_binary.
  set (m' := match _ with Z0 => _ | Z.pos _ => _ | Z.neg _ => _ end).
  assert (0 ≤ m') as Hm'.
  { unfold m'. destruct (_ - _ - _); [done| |done]. by apply Z.shiftl_nonneg. }
  assert (0 < 10 ^ (- k)) as Hk by (apply Z.pow_pos_nonneg; lia).
  pose proof (Z_div_mod m' (10 ^ (- k)) ltac:(lia)) as Hdiv.
  destruct (Z.div_eucl m' (10 ^ (- k))) as [q r].
  apply binary_round_aux_bounded. nia.
Qed.

Lemma opp_bounded x : bounded_below x → bounded_below (opp x).
Proof. by destruct x. Qed.

Lemma MV_nonneg radix ds : ∀ acc n,
  0 ≤ radix → 0 ≤ acc → MV radix ds acc = Some n → 0 ≤ n.
Proof.
  induction ds as [|c ds IH]; intros acc n Hr Ha; cbn [MV].
  - intros [= <-]. done.
  - destruct (digit_value c) as [d|] eqn:Ed; [|done].
    destruct (d <? radix); [|done].
    apply IH; [done|].
    assert (0 ≤ d); [|nia].
    unfold digit_value in Ed.
    destruct (is_digit c) eqn:E1.
    { injection Ed as <-. unfold is_digit in E1.
      apply andb_prop in E1 as [E1 _]. apply N.leb_le in E1. lia. }
    destruct (_ && _)%bool eqn:E2 in Ed.
    { injection Ed as <-. apply andb_prop in E2 as [E2 _]. apply N.leb_le in E2. lia. }
    destruct (_ && _)%bool eqn:E3 in Ed; [|done].
    injection Ed as <-. apply andb_prop in E3 as [E3 _]. apply N.leb_le in E3. lia.
Qed.

Lemma StrUnsignedDecimalLiteral_bounded s x :
  StrUnsignedDecimalLiteral s = Some x → bounded_below x.
Proof.
  unfold StrUnsignedDecimalLiteral. case_bool_decide; [by intros [= <-]|].
  destruct (span_digits s) as [int r1].
  destruct (match r1 with 46%N :: r => _ | _ => _ end) as [frac r2].
  destruct (int ++ frac) as [|d ds]; [done|].
  destruct (match r2 with [] => _ | _ => _ end) as [exponent|]; [|by cbn].
  cbn [mbind option_bind].
  destruct (MV 10 (d :: ds) 0) as [m|] eqn:Em; cbn [mbind option_bind]; [|done].
  intros [= <-]. apply RoundMVResult_bounded.
  by apply (MV_nonneg 10 (d :: ds) 0).
Qed.

Lemma StringToNumber_bounded s : bounded_below (StringToNumber s).
Proof.
  unfold StringToNumber. destruct (trim s) as [|c text]; [done|].
  destruct (NonDecimalIntegerLiteral _); [apply of_Z_bounded|].
  destruct (StrDecimalLiteral (c :: text)) as [x|] eqn:E; [|done]. cbn.
  unfold StrDecimalLiteral in E.
  destruct c as [|p].
  { by apply StrUnsignedDecimalLiteral_bounded in E. }
  destruct (decide (p = 43%positive)) as [->|].
  { by apply StrUnsignedDecimalLiteral_bounded in E. }
  destruct (decide (p = 45%positive)) as [->|].
  { destruct (StrUnsignedDecimalLiteral text) as [y|] eqn:Ey; [|done].
    injection E as <-. apply opp_bounded.
    by apply StrUnsignedDecimalLiteral_bounded in Ey. }
  assert (StrUnsignedDecimalLiteral (N.pos p :: text) = Some x) as E'.
  { revert E. do 7 (destruct p as [p|p|]; try done). }
  by apply StrUnsignedDecimalLiteral_bounded in E'.
Qed.

(** The product of a positive number and a constant that is at least 1
    is positive: it does not underflow to 0. *)
Lemma mul_positive x mc ec :
  bounded_below x → positive x = true →
  Z.pos (digits2_pos mc) = 53 → -52 ≤ ec →
  positive (mul x (S754_finite false mc ec)) = true
  ∧ bounded_below (mul x (S754_finite false mc ec)).
Proof.
  intros Hx Hpos Hmc Hec.
  destruct x as [[]|[]| |[] mx ex]; try done. cbn in Hx.
  unfold mul, SFmul. cbn [xorb]. split.
  - apply binary_round_aux_positive; [done|]. cbn [Zdigits2].
    pose proof (digits2_pos_bounds (mx * mc)) as [_ H1].
    pose proof (digits2_pos_bounds mc) as [H2 _].
    rewrite Hmc in H2.
    assert (52 < Z.pos (digits2_pos (mx * mc))); [|lia].
    apply (Z.pow_lt_mono_r_iff 2); [lia..|].
    eapply Z.le_lt_trans; [exact H2|]. eapply Z.le_lt_trans; [|exact H1]. nia.
  - by apply binary_round_aux_bounded.
Qed.

Lemma minutes_positive x :
  bounded_below x → positive x = true →
  positive (mul (mul x (of_Z 60)) (of_Z 1000)) = true.
Proof.
  intros Hx Hpos.
  destruct (mul_positive x 8444249301319680 (-47) Hx Hpos) as [H1 H2]; [done..|].
  change (S754_finite false 8444249301319680 (-47)) with (of_Z 60) in *.
  by destruct (mul_positive _ 8796093022208000 (-43) H2 H1) as [H3 _].
Qed.

(** The forms of numeric literals, evaluated. *)
Lemma StringToNumber_forms :
  List.map (λ s, StringToNumber (of_string s))
    ["5"; " 5 "; "+5"; "5.0"; "5."; "0x5"; "0B101"; "0o5"; "5e0"; "0.5e1";
     "50E-1"; "005"]%string
  = List.repeat (of_Z 5) 12
  ∧ List.map (λ s, StringToNumber (of_string s))
      ["abc"; "5px"; "5 5"; "1_000"; "-0x5"; "."; "e5"; "5e"; "0x"; "infinity";
       "- 5"; "++5"]%string
    = List.repeat NaN 12
  ∧ List.map (λ s, StringToNumber (of_string s))
      [""; "  "; "-0"; "1e1"; "Infinity"; "-Infinity"; "1e400"; "1e-400";
       "5e-324"; ".5"; "9007199254740993"]%string
    = [of_Z 0; of_Z 0; S754_zero true; of_Z 10; Infinity; S754_infinity true;
       Infinity; of_Z 0; S754_finite false 1 (-1074);
       S754_finite false 4503599627370496 (-53); of_Z 9007199254740992].
Proof. split_and!; vm_compute; reflexivity. Qed.

End Numbers.

End JsNumberFacts.

(** ** Part 8: facts about the heading rule *)

Module HeadingFacts.
Import JsString Heading.

#[local] Open Scope N_scope.

Section Remnants.

Implicit Types (s t r m : jsstring) (c : N).

Lemma no_rparen_spec t : no_rparen t = true ↔ rparen ∉ t.
Proof.
  unfold no_rparen. induction t as [|c t IH]; cbn [forallb].
  - split; [intros _; apply not_elem_of_nil|done].
  - rewrite andb_true_iff, IH, not_elem_of_cons, negb_true_iff, N.eqb_neq.
    split; intros [? ?]; (split; [congruence|done]).
Qed.

Lemma no_rparen_false t : no_rparen t = false ↔ rparen ∈ t.
Proof.
  destruct (no_rparen t) eqn:E.
  - apply no_rparen_spec in E. split; [done|]. intros ?. done.
  - split; [intros _|done]. destruct (decide (rparen ∈ t)) as [|Hn]; [done|].
    apply no_rparen_spec in Hn. congruence.
Qed.

Lemma span_target_spec t r :
  rparen ∉ t → span_target (t ++ rparen :: r) = (t, rparen :: r).
Proof.
  induction t as [|c t IH]; intros Hnot; simpl.
  - reflexivity.
  - apply not_elem_of_cons in Hnot as [Hc Ht].
    destruct (N.eqb_spec c rparen) as [->|_]; [done|].
    by rewrite (IH Ht).
Qed.

Lemma span_target_all t : rparen ∉ t → span_target t = (t, []).
Proof.
  induction t as [|c t IH]; intros Hnot; simpl; [done|].
  apply not_elem_of_cons in Hnot as [Hc Ht].
  destruct (N.eqb_spec c rparen) as [->|_]; [done|].
  by rewrite (IH Ht).
Qed.

Lemma span_target_inv s t r :
  span_target s = (t, r) →
  s = t ++ r ∧ (rparen ∉ t) ∧ (r = [] ∨ ∃ r', r = rparen :: r').
Proof.
  revert t r. induction s as [|c s IH]; intros t r; simpl.
  - intros [= <- <-]. split_and!; [done|apply not_elem_of_nil|by left].
  - destruct (N.eqb_spec c rparen) as [->|Hc].
    + intros [= <- <-]. split_and!; [done|apply not_elem_of_nil|right; eauto].
    + destruct (span_target s) as [t' r'] eqn:E. intros [= <- <-].
      destruct (IH _ _ eq_refl) as (-> & Ht & Hr).
      split_and!; [done| |done].
      apply not_elem_of_cons. split; [congruence|done].
Qed.

Lemma match_remnant_Some s m r :
  match_remnant s = Some (m, r) ↔ is_remnant m ∧ s = m ++ r.
Proof.
  split.
  - destruct s as [|c0 [|c1 [|c2 s]]]; simpl; try done.
    destruct (N.eqb_spec c0 lbracket) as [->|]; simpl; [|done].
    destruct (N.eqb_spec c1 rbracket) as [->|]; simpl; [|done].
    destruct (N.eqb_spec c2 lparen) as [->|]; simpl; [|done].
    destruct (span_target s) as [[|c t] [|d rest]] eqn:E; try done.
    intros [= <- <-].
    destruct (span_target_inv _ _ _ E) as (-> & Ht & [?|[r' [= -> ->]]]); [done|].
    split.
    + exists c, t. split; [by apply no_rparen_spec|reflexivity].
    + unfold remnant. simpl. by rewrite <- !app_assoc.
  - intros [(c & t & Hnot%no_rparen_spec & ->) ->]. unfold remnant.
    change (([lbracket; rbracket; lparen] ++ (c :: t) ++ [rparen]) ++ r)
      with (lbracket :: rbracket :: lparen :: ((c :: t) ++ [rparen]) ++ r).
    rewrite <- app_assoc. cbn [match_remnant].
    change ([rparen] ++ r) with (rparen :: r).
    rewrite (span_target_spec _ _ Hnot). reflexivity.
Qed.

Lemma replace_scan_skip m r :
  replace_scan (length m) (m ++ r) = replace_scan 0 r.
Proof.
  induction m as [|c m IH]; [done|]. exact IH.
Qed.

Lemma replace_remnants_nil : replace_remnants [] = [].
Proof. reflexivity. Qed.

Lemma replace_remnants_match s m r :
  match_remnant s = Some (m, r) → replace_remnants s = replace_remnants r.
Proof.
  intros H. pose proof H as H'. apply match_remnant_Some in H' as [(c & t & _ & Hm) ->].
  unfold replace_remnants. destruct m as [|c0 m]; [done|].
  change ((c0 :: m) ++ r) with (c0 :: (m ++ r)) in *.
  cbn [replace_scan]. rewrite H. cbn [length Nat.pred].
  apply replace_scan_skip.
Qed.

Lemma replace_remnants_keep c s :
  match_remnant (c :: s) = None →
  replace_remnants (c :: s) = c :: replace_remnants s.
Proof. intros H. unfold replace_remnants. cbn [replace_scan]. by rewrite H. Qed.

Lemma match_remnant_app s m r z :
  match_remnant s = Some (m, r) → match_remnant (s ++ z) = Some (m, r ++ z).
Proof.
  intros [Hm ->]%match_remnant_Some. apply match_remnant_Some.
  split; [done|]. by rewrite <- app_assoc.
Qed.

Lemma span_target_app_rparen x z :
  rparen ∈ x →
  ∃ t r, span_target x = (t, rparen :: r) ∧ span_target (x ++ z) = (t, rparen :: r ++ z).
Proof.
  intros (t & r & -> & Ht)%list_elem_of_split_l.
  exists t, r. split.
  - by apply span_target_spec.
  - rewrite <- app_assoc. by apply span_target_spec.
Qed.

(** A match that starts in [pre] and ends beyond it, in text that begins
    with a bracket: [pre] is an opened remnant. *)
Lemma match_crosses pre z mr :
  pre ≠ [] → match_remnant pre = None →
  match_remnant (pre ++ lbracket :: z) = Some mr →
  ∃ x, pre = [lbracket; rbracket; lparen] ++ x ∧ rparen ∉ x.
Proof.
  intros Hne Hpre Hall.
  destruct pre as [|c0 [|c1 [|c2 x]]]; [done| | |].
  - simpl in Hall. destruct z as [|? ?]; [done|].
    rewrite andb_false_r in Hall. done.
  - simpl in Hall. rewrite andb_false_r in Hall. done.
  - simpl in Hpre, Hall.
    destruct ((c0 =? lbracket) && (c1 =? rbracket) && (c2 =? lparen)) eqn:E; [|done].
    apply andb_prop in E as [[->%N.eqb_eq ->%N.eqb_eq]%andb_prop ->%N.eqb_eq].
    exists x. split; [done|]. intros Hin.
    destruct (span_target_app_rparen x (lbracket :: z) Hin) as (t & r & E1 & E2).
    rewrite E1 in Hpre. rewrite E2 in Hall.
    destruct t; done.
Qed.

Lemma is_remnant_head m : is_remnant m → ∃ m', m = lbracket :: m'.
Proof. intros (c & t & _ & ->). unfold remnant. eauto. Qed.

Lemma is_remnant_extend x m :
  rparen ∉ x → is_remnant m →
  is_remnant ([lbracket; rbracket; lparen] ++ x ++ m).
Proof.
  intros Hx (c & t & Ht%no_rparen_spec & ->).
  destruct (x ++ [lbracket; rbracket; lparen] ++ c :: t) as [|c' t'] eqn:E.
  { destruct x; done. }
  exists c', t'. split.
  - apply no_rparen_spec.
    rewrite <- E. rewrite !not_elem_of_app. split_and!; [done| |done].
    rewrite !not_elem_of_cons. split_and!; [done..|apply not_elem_of_nil].
  - unfold remnant. rewrite <- E. by rewrite <- !app_assoc.
Qed.

(** Every occurrence of the pattern is deleted: wherever a remnant [m]
    stands in the content, nothing of it reaches the output, and the
    scan goes on right after it. *)
Lemma replace_remnants_occurrence pre m post :
  is_remnant m →
  ∃ kept, kept `prefix_of` replace_remnants pre ∧
          replace_remnants (pre ++ m ++ post) = kept ++ replace_remnants post.
Proof.
  intros Hm. remember (length pre) as n eqn:Hn. revert pre Hn.
  induction n as [n IH] using lt_wf_ind. intros pre ->.
  destruct pre as [|c pre'].
  { exists []. split; [apply prefix_nil|]. simpl.
    apply (replace_remnants_match _ m), match_remnant_Some. done. }
  destruct (match_remnant (c :: pre')) as [[m1 r1]|] eqn:Hpre.
  - pose proof (match_remnant_app _ _ _ (m ++ post) Hpre) as Hall.
    pose proof Hpre as [Hm1 E]%match_remnant_Some.
    rewrite (replace_remnants_match _ _ _ Hpre), (replace_remnants_match _ _ _ Hall).
    refine (IH (length r1) _ r1 eq_refl).
    rewrite E, length_app. destruct Hm1 as (? & ? & _ & ->). simpl. lia.
  - destruct (match_remnant ((c :: pre') ++ m ++ post)) as [[m1 r1]|] eqn:Hall.
    + destruct (is_remnant_head _ Hm) as [m' Em].
      assert (∃ x, c :: pre' = [lbracket; rbracket; lparen] ++ x ∧ rparen ∉ x)
        as (x & Ex & Hx).
      { eapply (match_crosses (c :: pre') (m' ++ post)); [done|done|].
        rewrite Em in Hall. exact Hall. }
      assert (match_remnant ((c :: pre') ++ m ++ post) = Some ((c :: pre') ++ m, post))
        as Hall'.
      { apply match_remnant_Some. split; [|by rewrite <- app_assoc].
        rewrite Ex, <- app_assoc. by apply is_remnant_extend. }
      exists []. split; [apply prefix_nil|].
      by rewrite (replace_remnants_match _ _ _ Hall').
    + destruct (IH (length pre') ltac:(simpl; lia) pre' eq_refl) as (kept & Hk & E).
      exists (c :: kept). split.
      * rewrite (replace_remnants_keep _ _ Hpre). by apply prefix_cons.
      * change ((c :: pre') ++ m ++ post) with (c :: (pre' ++ m ++ post)) in *.
        rewrite (replace_remnants_keep _ _ Hall), E. done.
Qed.

Lemma open_remnant_suffix a b : open_remnant (a ++ b) = false → open_remnant b = false.
Proof.
  induction a as [|c a IH]; [done|]. cbn [app open_remnant].
  intros [_ H]%orb_false_elim. auto.
Qed.

Lemma match_remnant_bracket c s mr : match_remnant (c :: s) = Some mr → c = lbracket.
Proof.
  destruct s as [|c1 [|c2 s]]; simpl; try done.
  destruct (N.eqb_spec c lbracket); simpl; done.
Qed.

Lemma match_remnant_not_bracket c s : c ≠ lbracket → match_remnant (c :: s) = None.
Proof.
  intros Hc. destruct (match_remnant (c :: s)) eqn:E; [|done].
  by apply match_remnant_bracket in E.
Qed.

(** The text [[]()] is no match: where the scan reaches it, it stays. *)
Lemma replace_remnants_empty_remnant post :
  replace_remnants (empty_remnant ++ post) = empty_remnant ++ replace_remnants post.
Proof.
  unfold empty_remnant. cbn [app].
  rewrite replace_remnants_keep by reflexivity.
  rewrite !replace_remnants_keep by (by apply match_remnant_not_bracket).
  reflexivity.
Qed.

Lemma replace_remnants_empty_kept pre post :
  open_remnant pre = false →
  replace_remnants (pre ++ empty_remnant ++ post)
  = replace_remnants pre ++ empty_remnant ++ replace_remnants post.
Proof.
  remember (length pre) as n eqn:Hn. revert pre Hn.
  induction n as [n IH] using lt_wf_ind. intros pre -> Hopen.
  destruct pre as [|c pre']; [apply replace_remnants_empty_remnant|].
  destruct (match_remnant (c :: pre')) as [[m1 r1]|] eqn:Hpre.
  - pose proof (match_remnant_app _ _ _ (empty_remnant ++ post) Hpre) as Hall.
    pose proof Hpre as [Hm1 E]%match_remnant_Some.
    rewrite (replace_remnants_match _ _ _ Hpre), (replace_remnants_match _ _ _ Hall).
    refine (IH (length r1) _ r1 eq_refl _).
    + rewrite E, length_app. destruct Hm1 as (? & ? & _ & ->). simpl. lia.
    + rewrite E in Hopen. by apply open_remnant_suffix in Hopen.
  - destruct (match_remnant ((c :: pre') ++ empty_remnant ++ post)) as [mr|] eqn:Hall.
    + exfalso.
      destruct (match_crosses (c :: pre') ([rbracket; lparen; rparen] ++ post) mr)
        as (x & Ex & Hx); [done|done|exact Hall|].
      rewrite Ex in Hopen. cbn [app open_remnant] in Hopen.
      apply no_rparen_spec in Hx. rewrite Hx, !N.eqb_refl in Hopen. done.
    + change ((c :: pre') ++ empty_remnant ++ post)
        with (c :: (pre' ++ empty_remnant ++ post)) in *.
      rewrite (replace_remnants_keep _ _ Hall), (replace_remnants_keep _ _ Hpre).
      rewrite (IH (length pre') ltac:(simpl; lia) pre' eq_refl); [done|].
      cbn [open_remnant] in Hopen. by apply orb_false_elim in Hopen as [_ ?].
Qed.

Lemma replace_remnants_elem_of c s : c ∈ replace_remnants s → c ∈ s.
Proof.
  remember (length s) as n eqn:Hn. revert s Hn.
  induction n as [n IH] using lt_wf_ind. intros s ->.
  destruct s as [|d s']; [done|].
  destruct (match_remnant (d :: s')) as [[m1 r1]|] eqn:Hs.
  - pose proof Hs as [Hm1 E]%match_remnant_Some.
    rewrite (replace_remnants_match _ _ _ Hs). intros Hin.
    rewrite E. apply elem_of_app. right.
    refine (IH (length r1) _ r1 eq_refl Hin).
    rewrite E, length_app. destruct Hm1 as (? & ? & _ & ->). simpl. lia.
  - rewrite (replace_remnants_keep _ _ Hs).
    intros [->|Hin]%elem_of_cons; [left|right].
    exact (IH (length s') ltac:(simpl; lia) s' eq_refl Hin).
Qed.

Lemma bracket_before_bracket_suffix a b :
  bracket_before_bracket (a ++ b) = false → bracket_before_bracket b = false.
Proof.
  induction a as [|c a IH]; [done|]. cbn [app bracket_before_bracket].
  intros [_ H']%orb_false_elim. auto.
Qed.

Lemma has_remnant_false_cons c s :
  has_remnant (c :: s) = false ↔ match_remnant (c :: s) = None ∧ has_remnant s = false.
Proof.
  cbn [has_remnant]. destruct (match_remnant (c :: s)).
  - split; [done|]. intros [? _]. done.
  - split; [done|]. intros [_ ?]. done.
Qed.

(** A single pass leaves no match behind unless a bracket stood right
    before a removed remnant. *)
Lemma replace_remnants_clean s :
  bracket_before_bracket s = false → has_remnant (replace_remnants s) = false.
Proof.
  remember (length s) as n eqn:Hn. revert s Hn.
  induction n as [n IH] using lt_wf_ind. intros s -> Hbb.
  destruct s as [|c s']; [done|].
  destruct (match_remnant (c :: s')) as [[m1 r1]|] eqn:Hs.
  - pose proof Hs as [Hm1 E]%match_remnant_Some.
    rewrite (replace_remnants_match _ _ _ Hs).
    refine (IH (length r1) _ r1 eq_refl _).
    + rewrite E, length_app. destruct Hm1 as (? & ? & _ & ->). simpl. lia.
    + rewrite E in Hbb. by apply bracket_before_bracket_suffix in Hbb.
  - rewrite (replace_remnants_keep _ _ Hs). apply has_remnant_false_cons.
    pose proof Hbb as Hbb0.
    cbn [bracket_before_bracket] in Hbb. apply orb_false_elim in Hbb as [Hhd Hbb'].
    split; [|exact (IH (length s') ltac:(simpl; lia) s' eq_refl Hbb')].
    destruct (match_remnant (c :: replace_remnants s')) as [mr|] eqn:Hout; [|done].
    exfalso.
    pose proof (match_remnant_bracket _ _ _ Hout) as ->.
    (* the unit after the bracket is kept, so it is the closing bracket *)
    destruct s' as [|d s'']; [done|].
    rewrite N.eqb_refl in Hhd. cbn [andb] in Hhd.
    apply orb_false_elim in Hhd as [Hd Hhd].
    apply N.eqb_neq in Hd.
    rewrite (replace_remnants_keep d s'') in Hout by (by apply match_remnant_not_bracket).
    destruct s'' as [|e s3].
    { done. }
    destruct (N.eqb_spec d rbracket) as [->|Hd']; [|simpl in Hout; 
      destruct (replace_remnants (e :: s3)); [done|]; simpl in Hout;
      by destruct (N.eqb_spec d rbracket)].
    cbn [andb head] in Hhd. apply bool_decide_eq_false in Hhd.
    assert (e ≠ lbracket) as He by congruence.
    rewrite (replace_remnants_keep e s3) in Hout by (by apply match_remnant_not_bracket).
    cbn [match_remnant] in Hout, Hs.
    destruct (N.eqb_spec e lparen) as [->|]; [|simpl in Hout; done].
    cbn [N.eqb andb] in Hout, Hs. simpl in Hout, Hs.
    destruct (span_target (replace_remnants s3)) as [[|c1 t] [|d1 rest]] eqn:Eo; try done.
    destruct (span_target_inv _ _ _ Eo) as (Eout & Ht & [?|[r' [= -> ->]]]); [done|].
    assert (rparen ∈ s3) as Hin.
    { apply replace_remnants_elem_of. rewrite Eout.
      apply elem_of_app. right. left. }
    destruct s3 as [|f s4]; [by apply elem_of_nil in Hin|].
    assert (f ≠ rparen) as Hf.
    { intros ->. 
      rewrite (replace_remnants_keep rparen s4) in Eout by (by apply match_remnant_not_bracket).
      injection Eout as E1 _. apply Ht. rewrite <- E1. left. }
    apply list_elem_of_split_l in Hin as (t' & r2 & E' & Ht').
    rewrite E', (span_target_spec _ _ Ht') in Hs.
    destruct t' as [|? ?]; [|done].
    simpl in E'. congruence.
Qed.

Lemma has_remnant_prefix a b : has_remnant (a ++ b) = false → has_remnant a = false.
Proof.
  induction a as [|c a IH]; [done|].
  change ((c :: a) ++ b) with (c :: (a ++ b)).
  rewrite !has_remnant_false_cons. intros [Hm Hr]. split; [|auto].
  destruct (match_remnant (c :: a)) as [[m r]|] eqn:E; [|done].
  pose proof (match_remnant_app _ _ _ b E) as E'.
  change ((c :: a) ++ b) with (c :: (a ++ b)) in E'. congruence.
Qed.

Lemma has_remnant_suffix a b : has_remnant (a ++ b) = false → has_remnant b = false.
Proof.
  induction a as [|c a IH]; [done|].
  change ((c :: a) ++ b) with (c :: (a ++ b)).
  rewrite has_remnant_false_cons. intros [_ Hr]. auto.
Qed.

Lemma has_remnant_skip a b :
  lbracket ∉ a → has_remnant b = false → has_remnant (a ++ b) = false.
Proof.
  induction a as [|c a IH]; [done|].
  intros [Hc Ha]%not_elem_of_cons Hb.
  change ((c :: a) ++ b) with (c :: (a ++ b)).
  apply has_remnant_false_cons. split; [|auto].
  by apply match_remnant_not_bracket.
Qed.

Lemma is_remnant_last m : is_remnant m → last m = Some rparen.
Proof.
  intros (c & t & _ & ->). unfold remnant.
  rewrite app_assoc. apply last_snoc.
Qed.

Lemma match_remnant_no_rparen s z :
  rparen ∉ z → match_remnant s = None → match_remnant (s ++ z) = None.
Proof.
  intros Hz Hs. destruct (match_remnant (s ++ z)) as [[m r]|] eqn:E; [|done].
  exfalso. apply match_remnant_Some in E as [Hm E].
  apply app_eq_inv in E as [(k & -> & ->)|(k & -> & ->)].
  - assert (match_remnant (m ++ k) = Some (m, k)) by (by apply match_remnant_Some).
    congruence.
  - destruct k as [|c k _] using rev_ind.
    + rewrite app_nil_r in Hm.
      assert (match_remnant (s ++ []) = Some (s, [])) as H'
        by (by apply match_remnant_Some).
      rewrite app_nil_r in H'. congruence.
    + apply is_remnant_last in Hm.
      rewrite app_assoc, last_snoc in Hm. injection Hm as ->.
      apply Hz. rewrite !elem_of_app. left. right. left.
Qed.

Lemma has_remnant_no_rparen s z :
  rparen ∉ z → has_remnant s = false → has_remnant (s ++ z) = false.
Proof.
  intros Hz. induction s as [|c s IH].
  - intros _. simpl. induction z as [|d z IHz]; [done|].
    apply not_elem_of_cons in Hz as [Hd Hz].
    apply has_remnant_false_cons. split; [|auto].
    apply (match_remnant_no_rparen [] (d :: z)); [|done].
    apply not_elem_of_cons. done.
  - change ((c :: s) ++ z) with (c :: (s ++ z)).
    rewrite !has_remnant_false_cons. intros [Hm Hr]. split; [|auto].
    by apply (match_remnant_no_rparen (c :: s) z).
Qed.

(** *** Trimming *)

Lemma trimStart_head s c : head (trimStart s) = Some c → is_white_space c = false.
Proof.
  induction s as [|d s IH]; [done|]. cbn [trimStart].
  destruct (is_white_space d) eqn:E; [done|]. by intros [= <-].
Qed.

Lemma trimStart_suffix s : ∃ a, s = a ++ trimStart s.
Proof.
  induction s as [|d s [a IH]]; [by exists []|]. cbn [trimStart].
  destruct (is_white_space d).
  - exists (d :: a). simpl. by rewrite <- IH.
  - by exists [].
Qed.

Lemma trimEnd_prefix s : ∃ b, s = trimEnd s ++ b.
Proof.
  unfold trimEnd. destruct (trimStart_suffix (reverse s)) as [a E].
  exists (reverse a). rewrite <- reverse_app, <- E. by rewrite reverse_involutive.
Qed.

Lemma trimEnd_last s c : last (trimEnd s) = Some c → is_white_space c = false.
Proof.
  unfold trimEnd. rewrite last_reverse. apply trimStart_head.
Qed.

Lemma trim_head s c : head (trim s) = Some c → is_white_space c = false.
Proof.
  unfold trim. destruct (trimEnd_prefix (trimStart s)) as [b E].
  destruct (trimEnd (trimStart s)) as [|d t] eqn:Et; [done|].
  intros [= ->]. apply (trimStart_head s). by rewrite E.
Qed.

Lemma trim_last s c : last (trim s) = Some c → is_white_space c = false.
Proof. apply trimEnd_last. Qed.

Lemma trim_infix s : ∃ a b, s = a ++ trim s ++ b.
Proof.
  destruct (trimStart_suffix s) as [a Ea].
  destruct (trimEnd_prefix (trimStart s)) as [b Eb].
  exists a, b. unfold trim. by rewrite <- Eb.
Qed.

Lemma trimStart_keeps x e y c :
  head e = Some c → is_white_space c = false →
  ∃ x', trimStart (x ++ e ++ y) = x' ++ e ++ y.
Proof.
  intros He Hc. induction x as [|d x [x' IH]].
  - exists []. destruct e as [|c' e]; [done|]. injection He as ->.
    simpl. by rewrite Hc.
  - cbn [app trimStart]. destruct (is_white_space d).
    + by exists x'.
    + by exists (d :: x).
Qed.

Lemma trimEnd_keeps x e y c :
  last e = Some c → is_white_space c = false →
  ∃ y', trimEnd (x ++ e ++ y) = x ++ e ++ y'.
Proof.
  intros He Hc. unfold trimEnd.
  rewrite !reverse_app, <- app_assoc.
  destruct (trimStart_keeps (reverse y) (reverse e) (reverse x) c) as [y' E].
  { by rewrite head_reverse. } { done. }
  rewrite E. exists (reverse y').
  by rewrite !reverse_app, !reverse_involutive, <- app_assoc.
Qed.

Lemma trim_keeps x e y c d :
  head e = Some c → is_white_space c = false →
  last e = Some d → is_white_space d = false →
  ∃ x' y', trim (x ++ e ++ y) = x' ++ e ++ y'.
Proof.
  intros Hc Hc' Hd Hd'. unfold trim.
  destruct (trimStart_keeps x e y c Hc Hc') as [x' ->].
  destruct (trimEnd_keeps x' e y d Hd Hd') as [y' ->]. eauto.
Qed.
End Remnants.

Section Rule.

Implicit Types (content : jsstring) (node : Node) (options : Options).

Lemma heading_level n :
  (1 ≤ n ≤ 6)%nat →
  repeat_count (Number (charAt 1 (heading_tag n))) = n
  ∧ bool_decide (toLowerCase (heading_tag n) ∈ filter) = true.
Proof.
  intros [H1 H6].
  do 7 (destruct n as [|n]; [try lia; split; vm_compute; reflexivity|]). lia.
Qed.

Lemma repeat_hash_no_bracket n : lbracket ∉ repeat hash n.
Proof.
  intros Hin%list_elem_of_In. apply repeat_spec in Hin. discriminate Hin.
Qed.

Lemma replacement_clean content node options :
  bracket_before_bracket content = false →
  has_remnant (replacement content node options) = false.
Proof.
  intros Hbb. unfold replacement.
  set (n := repeat_count _).
  rewrite (app_assoc (repeat hash n)), (app_assoc [newline; newline]).
  apply has_remnant_skip.
  - rewrite !not_elem_of_app. split_and!.
    + rewrite !not_elem_of_cons. split_and!; [done..|apply not_elem_of_nil].
    + apply repeat_hash_no_bracket.
    + rewrite !not_elem_of_cons. split_and!; [done|apply not_elem_of_nil].
  - apply has_remnant_no_rparen.
    + rewrite !not_elem_of_cons. split_and!; [done..|apply not_elem_of_nil].
    + apply replace_remnants_clean in Hbb.
      destruct (trim_infix (replace_remnants content)) as (a & b & E).
      rewrite E in Hbb.
      by apply has_remnant_suffix, has_remnant_prefix in Hbb.
Qed.

(** C3 (amended). For a heading element of level 1 to 6 the rule applies
    and returns two newlines, exactly that many [#], one space, the
    content with the remnants found by one left-to-right pass removed
    and then trimmed, and two newlines. The trimmed text neither starts
    nor ends with white space, so the space after the markers is single
    and exactly one blank line stands before and after the heading. No
    match of the pattern is left in the heading when the content has no
    bracket right before [[] or [[][]. *)
Theorem heading_rule_output (n : nat) content node options :
  (1 ≤ n ≤ 6)%nat →
  nodeName node = heading_tag n →
  let body := trim (replace_remnants content) in
  rule_applies node = true
  ∧ replacement content node options
    = [newline; newline] ++ repeat hash n ++ [space] ++ body
      ++ [newline; newline]
  ∧ (∀ c, head body = Some c → is_white_space c = false)
  ∧ (∀ c, last body = Some c → is_white_space c = false)
  ∧ (bracket_before_bracket content = false →
     has_remnant (replacement content node options) = false).
Proof.
  intros Hn Hname body. destruct (heading_level n Hn) as [Hlevel Hfilter].
  split_and!.
  - unfold rule_applies. by rewrite Hname.
  - unfold replacement. by rewrite Hname, Hlevel.
  - apply trim_head.
  - apply trim_last.
  - apply replacement_clean.
Qed.

Lemma heading_rule_output_witness :
  replacement (of_string "  Intro [](#intro) ") (heading_element 3) turndownOptions
  = [newline; newline] ++ of_string "### Intro" ++ [newline; newline]
  ∧ has_remnant
      (replacement (of_string "  Intro [](#intro) ") (heading_element 3)
         turndownOptions) = false.
Proof.
  destruct (heading_rule_output 3 (of_string "  Intro [](#intro) ")
              (heading_element 3) turndownOptions)
    as (_ & Hout & _ & _ & Hclean); [lia|reflexivity|].
  split.
  - rewrite Hout. vm_compute. reflexivity.
  - apply Hclean. vm_compute. reflexivity.
Defined.

(** C3 as stated fails: the pass leaves a remnant that only forms once
    another one is removed, and it leaves the text [[]()]. *)
Lemma heading_keeps_stray_link :
  replacement (of_string "[[](x)](y)") (heading_element 1) turndownOptions
  = [newline; newline] ++ of_string "# [](y)" ++ [newline; newline]
  ∧ has_remnant
      (replacement (of_string "[[](x)](y)") (heading_element 1) turndownOptions)
    = true
  ∧ replacement (of_string "Intro[]()") (heading_element 2) turndownOptions
    = [newline; newline] ++ of_string "## Intro[]()" ++ [newline; newline].
Proof. split_and!; vm_compute; reflexivity. Qed.

(** C9 (amended). Every occurrence of the pattern is deleted: wherever
    [[](target)] with a non-empty target free of [)] stands in the
    content, none of its code units reaches the output and the scan goes
    on right after it. The text [[]()] is no match: it stays, in the
    cleaned content and in the heading, whenever no [[](] before it is
    still waiting for its [)]. *)
Theorem remnant_removal (pre post : jsstring) (c : N) (target : jsstring)
    node options :
  no_rparen (c :: target) = true →
  (∃ kept, kept `prefix_of` replace_remnants pre
           ∧ replace_remnants (pre ++ remnant (c :: target) ++ post)
             = kept ++ replace_remnants post)
  ∧ (open_remnant pre = false →
     replace_remnants (pre ++ empty_remnant ++ post)
     = replace_remnants pre ++ empty_remnant ++ replace_remnants post
     ∧ ∃ a b, replacement (pre ++ empty_remnant ++ post) node options
              = a ++ empty_remnant ++ b).
Proof.
  intros Htarget. split.
  - apply replace_remnants_occurrence. by exists c, target.
  - intros Hopen. pose proof (replace_remnants_empty_kept pre post Hopen) as E.
    split; [done|]. unfold replacement. rewrite E.
    generalize (repeat hash (repeat_count (Number (charAt 1 (nodeName node))))).
    intros markers.
    destruct (trim_keeps (replace_remnants pre) empty_remnant
                (replace_remnants post) lbracket rparen)
      as (x' & y' & ->); [done..|].
    exists ([newline; newline] ++ markers ++ [space] ++ x'),
      (y' ++ [newline; newline]).
    rewrite <- !app_assoc. reflexivity.
Qed.

Lemma remnant_removal_witness :
  replace_remnants (of_string "a[](#x)b[](#y)c[]()d")
  = of_string "abc[]()d".
Proof.
  destruct (remnant_removal (of_string "a[](#x)b[](#y)c") (of_string "d")
              35 (of_string "x") (heading_element 1) turndownOptions)
    as [_ Hkept]; [reflexivity|].
  destruct Hkept as [Hkept _]; [reflexivity|].
  exact Hkept.
Defined.

(** C9 as stated fails: the text [[]()] inside the parentheses of a
    remnant opened before it is deleted with that remnant. *)
Lemma empty_remnant_deleted_inside_target :
  of_string "[](a[]()" = of_string "[](a" ++ empty_remnant
  ∧ replace_remnants (of_string "[](a" ++ empty_remnant) = []
  ∧ replacement (of_string "[](a[]()") (heading_element 1) turndownOptions
    = [newline; newline; hash; space; newline; newline].
Proof. split_and!; vm_compute; reflexivity. Qed.

End Rule.

End HeadingFacts.

(** ** Part 9: facts about the commands and the scheduled sync *)

Module PluginFacts.
Import Plugin Omnivore.

#[local] Open Scope Z_scope.
#[local] Open Scope string_scope.
#[local] Open Scope list_scope.

Section Timers.

Implicit Types (s : Sys) (h : Host) (t : Task).

Lemma drive_timers t h : timers h `prefix_of` timers (drive t h).1.
Proof.
  revert h. induction t as [| | | | | | | | | |m k IH|m k IH|key k IH|cb _ d k IH
                              |v n k1 IH1 k2 IH2];
    intros h; cbn [drive fst]; try done.
  - etrans; [|apply IH]. done.
  - etrans; [|apply IH]. done.
  - etrans; [|apply IH]. done.
  - etrans; [|apply IH]. cbn. by apply prefix_app_r.
  - destruct (js_gt v n); [apply IH1|apply IH2].
Qed.

Lemma settle_timers a t h h' t' :
  settle a t h = Some (h', t') → timers h `prefix_of` timers h'.
Proof.
  destruct t; cbn [settle]; try done;
    try (intros [= E];
         match type of E with
         | drive ?t0 ?h0 = _ =>
             pose proof (drive_timers t0 h0) as H; by rewrite E in H
         end).
  destruct (settings h !! key).
  - intros [= E]. pose proof (drive_timers (k v) h) as H. by rewrite E in H.
  - by intros [= <- <-].
Qed.

Lemma spawn_timers t s : timers (host s) `prefix_of` timers (host (spawn t s)).
Proof.
  unfold spawn. pose proof (drive_timers t (host s)) as H.
  destruct (drive t (host s)). done.
Qed.

(** No timer is ever taken down: there is no [clearInterval] in the
    plugin, so whatever happens the timers set so far stay. *)
Lemma timers_never_removed e s s' :
  step e s = Some s' → timers (host s) `prefix_of` timers (host s').
Proof.
  destruct e as [name|j a|i|key v|]; cbn [step].
  - destruct (commands (host s) !! name); intros [= <-]. apply spawn_timers.
  - destruct (pool s !! j) as [t|]; [|done]. cbn.
    destruct (settle a t (host s)) as [[h t']|] eqn:E; intros [= <-].
    by apply settle_timers in E.
  - destruct (timers (host s) !! i); intros [= <-]. apply spawn_timers.
  - intros [= <-]. done.
  - intros [= <-]. generalize (listeners (host s)). intros l. revert s.
    induction l as [|t l IH]; intros s; [done|]. cbn [foldl].
    etrans; [apply (spawn_timers t)|apply IH].
Qed.

Lemma timers_retained es s s' :
  run es s = Some s' → timers (host s) `prefix_of` timers (host s').
Proof.
  revert s. induction es as [|e es IH]; intros s; cbn [run].
  - by intros [= <-].
  - destruct (step e s) as [s1|] eqn:E; [|done]. cbn. intros H.
    etrans; [by apply (timers_never_removed e)|by apply IH].
Qed.
End Timers.

Section Invariant.

Implicit Types (s : Sys) (h : Host) (t : Task).

Lemma ToNumber_bounded v : JsNumber.bounded_below (ToNumber v).
Proof.
  destruct v as [str|n]; cbn [ToNumber].
  - apply JsNumberFacts.StringToNumber_bounded.
  - apply JsNumberFacts.of_Z_bounded.
Qed.

Lemma scheduled_callback_ok : sets_scheduled_timers scheduled_callback.
Proof. intros v. cbn. by destruct (truthy v). Qed.

Lemma setupScheduledSync_ok k :
  sets_scheduled_timers k → sets_scheduled_timers (setupScheduledSync k).
Proof.
  intros Hk interval. cbn [sets_scheduled_timers]. split; [|done].
  intros Hgt. split_and!; [done| |done].
  apply JsNumberFacts.minutes_positive; [apply ToNumber_bounded|exact Hgt].
Qed.

Lemma onStart_ok : sets_scheduled_timers onStart.
Proof.
  cbn -[setupScheduledSync]. split_and!.
  - intros z. by destruct (Z.eqb z 0).
  - intros v. by destruct (truthy v).
  - apply setupScheduledSync_ok. cbn -[setupScheduledSync]. split; [|done].
    by apply setupScheduledSync_ok.
Qed.

Lemma drive_ok t h :
  sets_scheduled_timers t → plugin_host h →
  plugin_host (drive t h).1 ∧ sets_scheduled_timers (drive t h).2.
Proof.
  revert h. induction t as [| | | | | | | | | |m k IH|m k IH|key k IH|cb _ d k IH
                              |v n k1 IH1 k2 IH2];
    intros h Ht Hh; cbn [drive fst snd]; try done.
  - apply IH; done.
  - apply IH; done.
  - apply IH; [apply Ht|done].
  - destruct Ht as (Hcb & Hd & Hk). apply IH; [done|].
    destruct Hh as (H1 & H2 & H3). split_and!; [|done..]. cbn.
    apply Forall_app. split; [done|]. by apply Forall_singleton.
  - destruct Ht as [Ht1 Ht2].
    destruct (js_gt v n); [apply IH1|apply IH2]; auto.
Qed.

Lemma settle_ok a t h h' t' :
  settle a t h = Some (h', t') →
  sets_scheduled_timers t → plugin_host h →
  plugin_host h' ∧ sets_scheduled_timers t'.
Proof.
  intros E Ht Hh.
  assert (∀ t0 h0, drive t0 h0 = (h', t') → sets_scheduled_timers t0 →
                   plugin_host h0 → plugin_host h' ∧ sets_scheduled_timers t') as Hd.
  { intros t0 h0 E0 H0 Hh0. pose proof (drive_ok t0 h0 H0 Hh0) as H.
    by rewrite E0 in H. }
  destruct Hh as (H1 & H2 & H3).
  destruct t; cbn [settle] in E; try done.
  - destruct (settings h !! key).
    + injection E as E. eapply Hd; [exact E|apply Ht|done].
    + injection E as <- <-. done.
  - injection E as E. eapply Hd; [exact E|apply Ht|done].
  - injection E as E. eapply Hd; [exact E|apply Ht|done].
  - injection E as E. eapply Hd; [exact E|apply Ht|done].
  - injection E as E. eapply Hd; [exact E|apply Ht|done].
  - injection E as E. eapply Hd; [exact E|apply Ht|done].
  - injection E as E. destruct Ht as [Ht1 Ht2].
    eapply Hd; [exact E|done|]. split_and!; [done| |done]. cbn.
    by apply map_Forall_insert_2.
  - injection E as E. eapply Hd; [exact E|apply Ht|done].
  - injection E as E. destruct Ht as [Ht1 Ht2].
    eapply Hd; [exact E|done|]. split_and!; [done|done|]. cbn.
    apply Forall_app. split; [done|]. by apply Forall_singleton.
Qed.

Lemma spawn_ok t s :
  sets_scheduled_timers t → plugin_sys s → plugin_sys (spawn t s).
Proof.
  intros Ht [Hh Hp]. unfold spawn.
  pose proof (drive_ok t (host s) Ht Hh) as H.
  destruct (drive t (host s)) as [h t']. destruct H as [H1 H2].
  split; [done|]. cbn. apply Forall_app. split; [done|]. by apply Forall_singleton.
Qed.

Lemma step_ok e s s' : step e s = Some s' → plugin_sys s → plugin_sys s'.
Proof.
  intros E [Hh Hp]. pose proof Hh as (H1 & H2 & H3).
  destruct e as [name|j a|i|key v|]; cbn [step] in E.
  - destruct (commands (host s) !! name) as [t|] eqn:Ec; [|done].
    injection E as <-. apply spawn_ok; [|done]. by apply (H2 name).
  - destruct (pool s !! j) as [t|] eqn:Ej; [|done]. cbn in E.
    destruct (settle a t (host s)) as [[h t']|] eqn:Es; [|done].
    injection E as <-.
    destruct (settle_ok _ _ _ _ _ Es) as [Hh' Ht']; [|done|].
    { exact (Forall_lookup_1 _ _ _ _ Hp Ej). }
    split; [done|]. cbn. by apply Forall_insert.
  - destruct (timers (host s) !! i) as [tm|] eqn:Ei; [|done].
    injection E as <-. apply spawn_ok; [|done].
    assert (scheduled_timer tm) as [-> _] by exact (Forall_lookup_1 _ _ _ _ H1 Ei).
    apply scheduled_callback_ok.
  - injection E as <-. done.
  - injection E as <-.
    assert (∀ l s0, Forall sets_scheduled_timers l → plugin_sys s0 →
                    plugin_sys (foldl (λ s1 t, spawn t s1) s0 l)) as Hfold.
    { induction l as [|t l IH]; intros s0 Hl Hs0; [done|].
      apply Forall_cons in Hl as [Ht Hl]. cbn [foldl].
      apply IH; [done|]. by apply spawn_ok. }
    by apply Hfold.
Qed.

Lemma load_ok stored : plugin_sys (load stored).
Proof.
  apply spawn_ok; [apply onStart_ok|].
  split; [|by constructor]. split_and!; cbn; [by constructor| |by constructor].
  apply map_Forall_empty.
Qed.

(** Whatever has happened since the plugin was loaded, every timer is
    one of the scheduled sync at a positive period. *)
Lemma run_ok es s s' : run es s = Some s' → plugin_sys s → plugin_sys s'.
Proof.
  revert s. induction es as [|e es IH]; intros s; cbn [run].
  - by intros [= <-].
  - destruct (step e s) as [s1|] eqn:E; [|done]. cbn. intros H Hs.
    apply (IH s1); [done|]. by apply (step_ok e s).
Qed.
End Invariant.

Section Pool.

Implicit Types (s : Sys) (h : Host) (t : Task).

Lemma filter_insert_count (P : Task → bool) (l : list Task) j t t' :
  l !! j = Some t → P t = false → P t' = true →
  length (List.filter P (<[j := t']> l)) = S (length (List.filter P l)).
Proof.
  revert j. induction l as [|x l IH]; intros j; [done|].
  destruct j as [|j]; simpl.
  - intros [= ->] Ht Ht'. rewrite Ht, Ht'. done.
  - intros Hl Ht Ht'. destruct (P x); simpl; rewrite (IH j); done.
Qed.

Lemma filter_insert_same (P : Task → bool) (l : list Task) j t t' :
  l !! j = Some t → P t = false → P t' = false →
  length (List.filter P (<[j := t']> l)) = length (List.filter P l).
Proof.
  revert j. induction l as [|x l IH]; intros j; [done|].
  destruct j as [|j]; simpl.
  - intros [= ->] Ht Ht'. rewrite Ht, Ht'. done.
  - intros Hl Ht Ht'. destruct (P x); simpl; rewrite (IH j); done.
Qed.

(** What the settings listener does once the interval is read: with a
    positive interval it sets one more timer at that period, otherwise it
    sets none; the timers set before stay in either case. *)
Lemma listener_sets_timer (s : Sys) (j : nat) (answer : Z) (v : Value) :
  pool s !! j = Some onChange_listener →
  settings (host s) !! "syncInterval" = Some v →
  step (Settle j answer) s
  = Some {| host := if js_gt v 0
                    then add_timer {| callback := scheduled_callback;
                                      delay := minutes_to_ms v |} (host s)
                    else host s;
            pool := <[j := Return]> (pool s) |}.
Proof.
  intros Hj Hv. cbn [step]. rewrite Hj. cbn. rewrite Hv. cbn.
  by destruct (js_gt v 0).
Qed.

(** C4. With an empty API key the command [syncOmnivoreArticles] reports
    the error on the console and ends: the host is otherwise untouched, so
    no client is constructed, [syncArticles] is not called and the number
    of runs in progress is the same. The key is read when the host settles
    the read, whatever happened since the command was started. *)
Theorem manual_sync_without_key (s s' : Sys) (j : nat) (answer : Z) (v : Value) :
  commands (host s) !! "syncOmnivoreArticles" = Some syncOmnivoreArticles →
  pool s' !! j = Some syncOmnivoreArticles →
  settings (host s') !! "omnivoreApiKey" = Some v →
  truthy v = false →
  step (Execute "syncOmnivoreArticles") s
    = Some {| host := host s; pool := pool s ++ [syncOmnivoreArticles] |}
  ∧ step (Settle j answer) s'
    = Some {| host := record (LoggedError key_not_set) (host s');
              pool := <[j := Return]> (pool s') |}
  ∧ in_flight {| host := record (LoggedError key_not_set) (host s');
                 pool := <[j := Return]> (pool s') |} = in_flight s'.
Proof.
  intros Hcmd Hj Hkey Hv. split_and!.
  - cbn [step]. rewrite Hcmd. reflexivity.
  - cbn [step]. rewrite Hj. cbn. rewrite Hkey. cbn. rewrite Hv. reflexivity.
  - unfold in_flight. cbn [pool]. by apply (filter_insert_same _ _ _ syncOmnivoreArticles).
Qed.

Lemma manual_sync_without_key_witness :
  step (Execute "syncOmnivoreArticles") installed
  = Some {| host := host installed;
            pool := pool installed ++ [syncOmnivoreArticles] |}
  ∧ step (Settle 1 0) (after [Execute "syncOmnivoreArticles"] installed)
    = Some {| host := record (LoggedError key_not_set) (host installed);
              pool := [Return; Return] |}.
Proof.
  destruct (manual_sync_without_key installed
              (after [Execute "syncOmnivoreArticles"] installed) 1 0
              (VString ""))
    as (Hexec & Hsettle & _); try (vm_compute; reflexivity).
  split; [exact Hexec|]. rewrite Hsettle. vm_compute. reflexivity.
Defined.

(** C10. When a timer of the plugin fires while the API key is empty, its
    callback reads the key and ends: the host is left exactly as it was,
    so no client is constructed, [syncArticles] is not called and nothing
    is written to the console. *)
Theorem scheduled_sync_without_key (stored : gmap string Value)
    (es : list Event) (s s' : Sys) (i j : nat) (answer : Z) (tm : Timer)
    (v : Value) :
  run es (load stored) = Some s →
  timers (host s) !! i = Some tm →
  pool s' !! j = Some (callback tm) →
  settings (host s') !! "omnivoreApiKey" = Some v →
  truthy v = false →
  step (Fire i) s
    = Some {| host := host s; pool := pool s ++ [callback tm] |}
  ∧ step (Settle j answer) s'
    = Some {| host := host s'; pool := <[j := Return]> (pool s') |}.
Proof.
  intros Hrun Htm Hj Hkey Hv.
  assert (callback tm = scheduled_callback) as Hcb.
  { destruct (run_ok _ _ _ Hrun (load_ok stored)) as [(Htimers & _) _].
    by destruct (Forall_lookup_1 _ _ _ _ Htimers Htm). }
  rewrite Hcb in *. split.
  - cbn [step]. rewrite Htm. cbn. rewrite Hcb. reflexivity.
  - cbn [step]. rewrite Hj. cbn. rewrite Hkey. cbn. rewrite Hv. reflexivity.
Qed.

Lemma scheduled_sync_without_key_witness :
  List.map delay (timers (host scheduled_without_key)) = [JsNumber.of_Z 300000]
  ∧ step (Fire 0) scheduled_without_key
    = Some {| host := host scheduled_without_key;
              pool := pool scheduled_without_key ++ [scheduled_callback] |}
  ∧ step (Settle 2 0) (after [Fire 0] scheduled_without_key)
    = Some {| host := host scheduled_without_key;
              pool := [Return; Return; Return] |}.
Proof.
  destruct (scheduled_sync_without_key ∅ (startup ++ configure "" 5)
              scheduled_without_key (after [Fire 0] scheduled_without_key)
              0 2 0 {| callback := scheduled_callback; delay := JsNumber.of_Z 300000 |}
              (VString ""))
    as (Hfire & Hsettle); try (vm_compute; reflexivity).
  split_and!; [vm_compute; reflexivity|exact Hfire|].
  rewrite Hsettle. vm_compute. reflexivity.
Defined.

(** C1 (amended). Neither trigger looks at the runs in progress: whenever
    the manual command or a timer callback reads a non-empty API key, it
    constructs a client and calls [syncArticles] at once, also while
    earlier calls are pending, and one more run is in progress. Nothing
    is queued. *)
Theorem trigger_starts_run (s : Sys) (j : nat) (t : Task) (answer : Z) (v : Value) :
  t = syncOmnivoreArticles ∨ t = scheduled_callback →
  pool s !! j = Some t →
  settings (host s) !! "omnivoreApiKey" = Some v →
  truthy v = true →
  let client := {| apiKey := v |} in
  let s' := {| host := record (SyncStarted client)
                         (record (ClientConstructed v) (host s));
               pool := <[j := SyncArticles client Return]> (pool s) |} in
  step (Settle j answer) s = Some s' ∧ in_flight s' = S (in_flight s).
Proof.
  intros Ht Hj Hkey Hv client s'. split.
  - cbn [step]. rewrite Hj. cbn.
    destruct Ht as [-> | ->]; cbn; rewrite Hkey; cbn; rewrite Hv; reflexivity.
  - unfold in_flight. cbn [pool s'].
    apply (filter_insert_count _ _ _ t); [done| |done].
    by destruct Ht as [-> | ->].
Qed.

Lemma trigger_starts_run_witness :
  in_flight (after [Fire 0] one_run_in_progress) = 1%nat
  ∧ ∃ s', step (Settle 3 0) (after [Fire 0] one_run_in_progress) = Some s'
          ∧ in_flight s' = 2%nat.
Proof.
  split; [vm_compute; reflexivity|].
  destruct (trigger_starts_run (after [Fire 0] one_run_in_progress) 3
              scheduled_callback 0 (VString "k"))
    as (Hstep & Hcount); try (vm_compute; reflexivity).
  { by right. }
  eexists. split; [exact Hstep|]. rewrite Hcount. vm_compute. reflexivity.
Defined.

(** C1 as stated fails: a timer that fires while the run the operator
    started is in progress is not skipped; its callback constructs a
    client and calls [syncArticles], and two runs are in progress. *)
Lemma second_run_starts_during_first :
  run manual_run_started (load ∅) = Some one_run_in_progress
  ∧ in_flight one_run_in_progress = 1%nat
  ∧ run timer_fires one_run_in_progress = Some two_runs_in_progress
  ∧ in_flight two_runs_in_progress = 2%nat
  ∧ actions (host two_runs_in_progress)
    = actions (host one_run_in_progress)
      ++ [ClientConstructed (VString "k");
          SyncStarted {| apiKey := VString "k" |}].
Proof. split_and!; vm_compute; reflexivity. Qed.

(** C2 at its failing input: the interval is changed from five to ten
    minutes. The timer of the five-minute interval is still there next to
    the new one, and when it fires a sync starts. *)
Lemma old_timer_fires_after_reconfiguration :
  run (interval_changed 10) (load ∅) = Some (reconfigured 10)
  ∧ settings (host (reconfigured 10)) !! "syncInterval" = Some (VNumber 10)
  ∧ List.map delay (timers (host (reconfigured 10)))
    = [JsNumber.of_Z 300000; JsNumber.of_Z 600000]
  ∧ run timer_fires (reconfigured 10)
    = Some (after timer_fires (reconfigured 10))
  ∧ actions (host (after timer_fires (reconfigured 10)))
    = actions (host (reconfigured 10))
      ++ [ClientConstructed (VString "k");
          SyncStarted {| apiKey := VString "k" |}].
Proof. split_and!; vm_compute; reflexivity. Qed.

(** C7 at its failing input: the interval is changed from five minutes to
    zero. The timer of the five-minute interval is still there, and when
    it fires a sync starts although the configured interval is zero. *)
Lemma timer_fires_with_interval_zero :
  run (interval_changed 0) (load ∅) = Some (reconfigured 0)
  ∧ settings (host (reconfigured 0)) !! "syncInterval" = Some (VNumber 0)
  ∧ List.map delay (timers (host (reconfigured 0))) = [JsNumber.of_Z 300000]
  ∧ run timer_fires (reconfigured 0)
    = Some (after timer_fires (reconfigured 0))
  ∧ in_flight (after timer_fires (reconfigured 0)) = 1%nat
  ∧ actions (host (after timer_fires (reconfigured 0)))
    = actions (host (reconfigured 0))
      ++ [ClientConstructed (VString "k");
          SyncStarted {| apiKey := VString "k" |}].
Proof. split_and!; vm_compute; reflexivity. Qed.
End Pool.

Section Reset.

Implicit Types (s : Sys) (h : Host) (t : Task).

Lemma list_insert_snoc (l : list Task) t t' : <[length l := t']> (l ++ [t]) = l ++ [t'].
Proof.
  replace (length l) with (length l + 0)%nat by lia.
  by rewrite insert_app_r.
Qed.

Lemma lookup_snoc (l : list Task) t : (l ++ [t]) !! length l = Some t.
Proof. by rewrite list_lookup_middle. Qed.





Implicit Types (m : gmap string Value).

Lemma cleared_lookup_state m key :
  key ∈ sync_state_keys → cleared m !! key = first_install !! key.
Proof.
  unfold sync_state_keys. rewrite !elem_of_cons, elem_of_nil.
  intros [->|[->|[->|[]]]]; unfold cleared.
  - rewrite !lookup_insert_ne by done. by rewrite lookup_insert_eq.
  - rewrite lookup_insert_ne by done. by rewrite lookup_insert_eq.
  - by rewrite lookup_insert_eq.
Qed.

Lemma cleared_lookup_other m key :
  key ∉ sync_state_keys → cleared m !! key = m !! key.
Proof.
  unfold sync_state_keys. rewrite !not_elem_of_cons.
  intros (? & ? & ? & _). unfold cleared.
  by rewrite !lookup_insert_ne.
Qed.

End Reset.

End PluginFacts.

(** ** Part 10: more facts about the heading rule *)

Module HeadingMore.
Import JsString Heading HeadingFacts.

#[local] Open Scope N_scope.

Section Removal.

Implicit Types (s content : jsstring) (node : Node) (options : Options).

Lemma match_remnant_length s m r :
  match_remnant s = Some (m, r) → (length r < length s)%nat.
Proof.
  intros [(c & t & _ & ->) ->]%match_remnant_Some.
  rewrite length_app. unfold remnant. simpl. lia.
Qed.

Theorem replace_remnants_sublist content :
  replace_remnants content `sublist_of` content.
Proof.
  remember (length content) as n eqn:Hn. revert content Hn.
  induction n as [n IH] using lt_wf_ind. intros s ->.
  destruct s as [|c s']; [done|].
  destruct (match_remnant (c :: s')) as [[m r]|] eqn:Hs.
  - rewrite (replace_remnants_match _ _ _ Hs).
    pose proof (match_remnant_length _ _ _ Hs) as Hlen.
    pose proof Hs as [_ E]%match_remnant_Some. rewrite E.
    apply sublist_inserts_l. by apply (IH (length r)).
  - rewrite (replace_remnants_keep _ _ Hs). apply sublist_skip.
    apply (IH (length s')); [simpl; lia|done].
Qed.

Theorem replace_remnants_fixed content :
  has_remnant content = false → replace_remnants content = content.
Proof.
  induction content as [|c s IH]; [done|].
  intros [Hm Hs]%has_remnant_false_cons.
  rewrite (replace_remnants_keep _ _ Hm). by rewrite IH.
Qed.

Theorem replace_remnants_twice content :
  bracket_before_bracket content = false →
  replace_remnants (replace_remnants content) = replace_remnants content.
Proof. intros H. by apply replace_remnants_fixed, replace_remnants_clean. Qed.


Lemma replace_remnants_no_bracket a s :
  lbracket ∉ a → replace_remnants (a ++ s) = a ++ replace_remnants s.
Proof.
  induction a as [|c a IH]; [done|].
  intros [Hc Ha]%not_elem_of_cons.
  change ((c :: a) ++ s) with (c :: (a ++ s)).
  rewrite replace_remnants_keep by (by apply match_remnant_not_bracket).
  by rewrite IH.
Qed.

Lemma trimStart_blank s :
  Forall (λ c, is_white_space c = true) s → trimStart s = [].
Proof.
  induction 1 as [|c s Hc _ IH]; [done|]. cbn [trimStart]. by rewrite Hc.
Qed.

Lemma trim_blank s :
  Forall (λ c, is_white_space c = true) s → trim s = [].
Proof. intros H. unfold trim, trimEnd. by rewrite (trimStart_blank s H). Qed.

Lemma white_space_not_digit c : is_white_space c = true → is_digit c = false.
Proof.
  unfold is_white_space, is_digit. intros H.
  apply andb_false_iff.
  destruct (N.leb_spec 48 c); [|by left]. destruct (N.leb_spec c 57); [|by right].
  exfalso.
  repeat (apply orb_prop in H as [H|H]);
    try apply andb_prop in H as [Hlo%N.leb_le Hhi%N.leb_le];
    try apply N.eqb_eq in H; lia.
Qed.

Lemma trim_single c :
  trim [c] = if is_white_space c then [] else [c].
Proof.
  unfold trim, trimEnd. cbn [trimStart].
  destruct (is_white_space c) eqn:E; [done|].
  cbn. by rewrite E.
Qed.

(** The number of markers, for any node name. *)
Lemma marker_count node :
  repeat_count (Number (charAt 1 (nodeName node)))
  = match nodeName node !! 1%nat with
    | Some c => if is_digit c then N.to_nat (c - 48) else 0%nat
    | None => 0%nat
    end.
Proof.
  unfold charAt. destruct (nodeName node !! 1%nat) as [c|]; [|done].
  unfold Number. rewrite trim_single.
  destruct (is_white_space c) eqn:E.
  - by rewrite (white_space_not_digit c E).
  - by destruct (is_digit c).
Qed.

End Removal.

Section Rule.

Implicit Types (content : jsstring) (node : Node) (options : Options).

(** X1. The rule only deletes: the text it puts after the markers is a
    subsequence of the content (no code unit is added, changed or
    reordered), so the heading is never longer than the content plus the
    markers and the five fixed code units. *)
Theorem heading_text_from_content content node options :
  ∃ markers body,
    replacement content node options
    = [newline; newline] ++ repeat hash markers ++ [space] ++ body
      ++ [newline; newline]
    ∧ body `sublist_of` content
    ∧ (length (replacement content node options)
       ≤ 5 + markers + length content)%nat.
Proof.
  exists (repeat_count (Number (charAt 1 (nodeName node)))),
    (trim (replace_remnants content)).
  assert (trim (replace_remnants content) `sublist_of` content) as Hsub.
  { destruct (trim_infix (replace_remnants content)) as (a & b & E).
    etrans; [|apply replace_remnants_sublist].
    rewrite E at 2. apply sublist_inserts_l, sublist_inserts_r. done. }
  split_and!; [done|done|].
  unfold replacement. rewrite !length_app. unfold repeat.
  rewrite repeat_length. apply sublist_length in Hsub. simpl. lia.
Qed.

(** X2. Content without a match of the pattern goes through the removal
    unchanged: the heading is the markers, a space and the trimmed
    content. *)
Theorem heading_without_remnant content node options :
  has_remnant content = false →
  replacement content node options
  = [newline; newline]
    ++ repeat hash (repeat_count (Number (charAt 1 (nodeName node))))
    ++ [space] ++ trim content ++ [newline; newline].
Proof. intros H. unfold replacement. by rewrite replace_remnants_fixed. Qed.

Lemma heading_without_remnant_witness :
  replacement (of_string " Intro ") (heading_element 2) turndownOptions
  = [newline; newline] ++ of_string "## Intro" ++ [newline; newline].
Proof.
  rewrite heading_without_remnant by reflexivity. vm_compute. reflexivity.
Defined.

(** X3. The usual anchor remnant: when the text before and after it has
    no opening bracket, the heading of level 1 to 6 is made of the text
    before and after the remnant, joined and trimmed. A remnant at the end
    of a title thus goes away together with the space before it. *)
Theorem heading_anchor_removed (n : nat) (a b : jsstring) (c : N)
    (target : jsstring) node options :
  (1 ≤ n ≤ 6)%nat →
  nodeName node = heading_tag n →
  lbracket ∉ a → lbracket ∉ b →
  no_rparen (c :: target) = true →
  replacement (a ++ remnant (c :: target) ++ b) node options
  = [newline; newline] ++ repeat hash n ++ [space] ++ trim (a ++ b)
    ++ [newline; newline].
Proof.
  intros Hn Hname Ha Hb Ht.
  destruct (heading_level n Hn) as [Hlevel _].
  unfold replacement. rewrite Hname, Hlevel.
  rewrite replace_remnants_no_bracket by done.
  rewrite (replace_remnants_match _ (remnant (c :: target)) b).
  - replace (replace_remnants b) with b; [done|].
    rewrite <- (app_nil_r b) at 2.
    rewrite (replace_remnants_no_bracket b []) by done.
    by rewrite replace_remnants_nil, app_nil_r.
  - apply match_remnant_Some. split; [by exists c, target|done].
Qed.

Lemma heading_anchor_removed_witness :
  replacement (of_string "Intro [](#intro)") (heading_element 2) turndownOptions
  = [newline; newline] ++ of_string "## Intro" ++ [newline; newline].
Proof.
  pose proof (heading_anchor_removed 2 (of_string "Intro ") [] 35
                (of_string "intro") (heading_element 2) turndownOptions) as H.
  etrans; [apply H|vm_compute; reflexivity].
  - lia.
  - reflexivity.
  - match goal with |- ?P => apply (bool_decide_unpack P) end. vm_compute. exact I.
  - apply not_elem_of_nil.
  - reflexivity.
Defined.

(** X4. The number of markers for any node: the value of the second code
    unit of the node name when that is a decimal digit, and none when it is
    anything else or the name is shorter ([Number] then gives NaN or 0,
    and [repeat] of either is the empty string). *)
Theorem heading_markers_of_any_node content node options :
  replacement content node options
  = [newline; newline]
    ++ repeat hash
         match nodeName node !! 1%nat with
         | Some c => if is_digit c then N.to_nat (c - 48) else 0%nat
         | None => 0%nat
         end
    ++ [space] ++ trim (replace_remnants content) ++ [newline; newline].
Proof. unfold replacement. by rewrite marker_count. Qed.

(** X5. When nothing but white space is left of the content after the
    removal (the content is empty, blank, or only remnants and blanks),
    the rule returns the bare marker line. *)
Theorem heading_of_blank_content content node options :
  Forall (λ c, is_white_space c = true) (replace_remnants content) →
  replacement content node options
  = [newline; newline]
    ++ repeat hash (repeat_count (Number (charAt 1 (nodeName node))))
    ++ [space; newline; newline].
Proof. intros H. unfold replacement. by rewrite (trim_blank _ H). Qed.

Lemma heading_of_blank_content_witness :
  replacement (of_string " [](#intro) ") (heading_element 3) turndownOptions
  = [newline; newline; hash; hash; hash; space; newline; newline].
Proof.
  rewrite heading_of_blank_content.
  - vm_compute. reflexivity.
  - match goal with |- ?P => apply (bool_decide_unpack P) end. vm_compute. exact I.
Defined.


Lemma lower_inv (c x : N) :
  (if (65 <=? c) && (c <=? 90) then c + 32 else c) = x →
  c = x ∨ (c + 32 = x ∧ 65 ≤ c ≤ 90).
Proof.
  destruct (N.leb_spec 65 c), (N.leb_spec c 90); cbn; intros <-; auto.
Qed.

Lemma lower_name_inv (name : jsstring) (d : N) :
  49 ≤ d ≤ 54 →
  toLowerCase name = [104; d] →
  name = [72; d] ∨ name = [104; d].
Proof.
  intros Hd. destruct name as [|c0 [|c1 [|? ?]]]; try done.
  cbn [toLowerCase List.map]. intros [= H0 H1].
  apply lower_inv in H0 as [->|[H0 ?]], H1 as [->|[H1 ?]];
    first [by right | left; f_equal; lia | lia].
Qed.

(** X6. The filter of the rule selects exactly the nodes named [H1] to
    [H6], in upper or lower case. *)
Theorem rule_applies_to_headings node :
  rule_applies node = true
  ↔ ∃ n, (1 ≤ n ≤ 6)%nat
         ∧ (nodeName node = heading_tag n
            ∨ nodeName node = of_string "h" ++ [48 + N.of_nat n]).
Proof.
  unfold rule_applies. split.
  - rewrite bool_decide_eq_true.
    unfold filter. cbn [List.map]. rewrite !elem_of_cons, elem_of_nil.
    intros H.
    assert (∃ n, (1 ≤ n ≤ 6)%nat
                 ∧ toLowerCase (nodeName node) = [104; 48 + N.of_nat n])
      as (n & Hn & E).
    { destruct H as [H|[H|[H|[H|[H|[H|[]]]]]]];
        [exists 1%nat|exists 2%nat|exists 3%nat|exists 4%nat|exists 5%nat
        |exists 6%nat]; (split; [lia|exact H]). }
    exists n. split; [done|].
    apply lower_name_inv in E; [|lia].
    destruct E as [E|E]; [left|right]; exact E.
  - intros (n & Hn & [-> | ->]);
      do 7 (destruct n as [|n]; [try lia; vm_compute; reflexivity|]); lia.
Qed.

End Rule.
End HeadingMore.

(** ** Part 11: facts about the heading rule in the runtime *)

Module RuntimeFacts.
Import JsString Heading HeadingFacts HeadingMore Runtime.

#[local] Open Scope string_scope.
#[local] Open Scope list_scope.

Section Replace.
Implicit Types (str s : jsstring) (w : World).

Lemma get_at_index w i :
  get_lastIndex (length (regexps w)) (at_index w i) = (at_index w i, i).
Proof.
  unfold get_lastIndex, at_index. cbn. by rewrite list_lookup_middle.
Qed.

Lemma set_at_index w i j :
  set_lastIndex (length (regexps w)) j (at_index w i) = (at_index w j, tt).
Proof.
  unfold set_lastIndex, at_index. cbn. f_equal. f_equal.
  replace (length (regexps w)) with (length (regexps w) + 0)%nat at 1 by lia.
  by rewrite insert_app_r.
Qed.

Lemma find_from_None p s : find_from p s = None → has_remnant s = false.
Proof.
  revert p. induction s as [|c s IH]; intros p; cbn [find_from]; [done|].
  destruct (match_remnant (c :: s)) as [[m r]|] eqn:E; [done|].
  intros H. apply has_remnant_false_cons. split; [done|]. by apply (IH (S p)).
Qed.

(** A search that succeeds finds the leftmost match: the text before it
    is kept by the scan, and the scan goes on after the match. *)
Lemma find_from_Some p s q e :
  find_from p s = Some (q, e) →
  ∃ pre m rest,
    s = pre ++ m ++ rest ∧ q = (p + length pre)%nat ∧ e = (q + length m)%nat
    ∧ (0 < length m)%nat
    ∧ replace_remnants s = pre ++ replace_remnants rest.
Proof.
  revert p. induction s as [|c s IH]; intros p; cbn [find_from].
  - done.
  - destruct (match_remnant (c :: s)) as [[m r]|] eqn:E.
    + intros [= <- <-]. exists [], m, r.
      pose proof E as E'. apply match_remnant_Some in E' as [(c0 & t & _ & Hm) Hs].
      split_and!; [done|cbn; lia|done| |exact (replace_remnants_match _ _ _ E)].
      rewrite Hm. unfold remnant. cbn. lia.
    + intros H. destruct (IH (S p) H) as (pre & m & rest & -> & -> & -> & Hm & Hr).
      exists (c :: pre), m, rest.
      split_and!; [done|cbn; lia|done|done|].
      change ((c :: pre) ++ m ++ rest) with (c :: (pre ++ m ++ rest)).
      rewrite (replace_remnants_keep _ _ E), Hr. done.
Qed.

(** The loop, started with [lastIndex] at [i], leaves [lastIndex] at 0
    and collects the matches the scan deletes from [i] on. *)
Lemma collect_spec rounds str w i :
  (i ≤ length str)%nat → (length str - i < rounds)%nat →
  ∃ results,
    collect rounds (length (regexps w)) str (at_index w i)
    = (at_index w 0, results)
    ∧ splice str i results [] = replace_remnants (drop i str).
Proof.
  revert i. induction rounds as [|rounds IH]; intros i Hi Hr; [lia|].
  cbn [collect]. unfold bind at 1, RegExpBuiltinExec. unfold bind at 1.
  rewrite get_at_index. rewrite decide_True by done.
  destruct (find_from i (drop i str)) as [[p e]|] eqn:E.
  - destruct (find_from_Some _ _ _ _ E) as (pre & m & rest & Hs & -> & -> & Hm & Hrep).
    assert (length (drop i str) = length pre + length m + length rest)%nat as Hlen.
    { rewrite Hs, !length_app. lia. }
    rewrite length_drop in Hlen.
    unfold bind at 1. rewrite set_at_index. unfold ret at 1.
    rewrite decide_False by lia.
    unfold bind at 1. unfold ret at 1. unfold bind at 1.
    destruct (IH (i + length pre + length m)%nat) as (results & Hc & Hsp); [lia|lia|].
    rewrite Hc. unfold ret. eexists. split; [done|].
    cbn [splice]. rewrite decide_True by lia.
    rewrite Hsp, Hrep, Hs.
    replace (i + length pre - i)%nat with (length pre) by lia.
    rewrite take_app_length. cbn [app]. f_equal.
    replace (i + length pre + length m)%nat
      with (i + (length pre + length m))%nat by lia.
    rewrite <- drop_drop, Hs, app_assoc.
    replace (length pre + length m)%nat with (length (pre ++ m))
      by (by rewrite length_app).
    by rewrite drop_app_length.
  - unfold bind at 1. rewrite set_at_index. unfold ret.
    exists []. split; [done|]. cbn [splice].
    symmetry. apply replace_remnants_fixed. by apply (find_from_None i).
Qed.

(** [replace] on the RegExp object a call has just made returns what
    the scan returns, wherever [lastIndex] stood, and leaves the object at
    rest. *)
Lemma String_replace_spec str w i :
  String_replace str (length (regexps w)) [] (at_index w i)
  = (at_index w 0, replace_remnants str).
Proof.
  unfold String_replace, bind. rewrite set_at_index.
  destruct (collect_spec (S (length str)) str w 0) as (results & Hc & Hsp);
    [lia|lia|].
  rewrite Hc. unfold ret. f_equal. by rewrite Hsp, drop_0.
Qed.

Lemma replacement_call_spec content node options w :
  replacement_call content node options w
  = (after_call w, replacement content node options).
Proof.
  unfold replacement_call, bind at 1, new_RegExp.
  change {| joplin := joplin w; regexps := regexps w ++ [{| lastIndex := 0 |}] |}
    with (at_index w 0).
  unfold bind. rewrite String_replace_spec. reflexivity.
Qed.

(** The runtime model evaluated: a heading with an anchor remnant, in a
    world with a sync run in progress and RegExp objects left over. *)
Lemma replacement_call_example :
  (replacement_call (of_string "Intro [](#intro)") (heading_element 2)
     turndownOptions busy_world).2
  = [newline; newline] ++ of_string "## Intro" ++ [newline; newline]
  ∧ regexps (replacement_call (of_string "Intro [](#intro)") (heading_element 2)
               turndownOptions busy_world).1
    = [{| lastIndex := 12 |}; {| lastIndex := 3 |}; {| lastIndex := 0 |}].
Proof. split; vm_compute; reflexivity. Qed.

(** C8. A call of the rule reads nothing but its content and the name of
    its node, and writes nothing a later call reads. In every world,
    whatever the host holds and whatever RegExp objects earlier calls
    left behind, with [lastIndex] anywhere, the call returns the text
    [replacement content node options]; it leaves the host and the
    existing objects as they were and adds one RegExp object of its own,
    at rest. So a second call returns the same text again: in the world
    the first call leaves or in any other world, with another options
    object, and with another node of the same name. *)
Theorem heading_rule_deterministic content (node node' : Node)
    (options options' : Options) (w w' : World) :
  nodeName node = nodeName node' →
  replacement_call content node options w
  = (after_call w, replacement content node options)
  ∧ replacement_call content node' options' (after_call w)
    = (after_call (after_call w), replacement content node options)
  ∧ replacement_call content node' options' w'
    = (after_call w', replacement content node options).
Proof.
  intros Hname.
  assert (replacement content node' options' = replacement content node options)
    as E by (unfold replacement; by rewrite Hname).
  rewrite !replacement_call_spec, E. done.
Qed.

Lemma heading_rule_deterministic_witness :
  replacement_call (of_string "Intro [](#intro)") (heading_element 2)
    turndownOptions busy_world
  = (after_call busy_world,
     replacement (of_string "Intro [](#intro)") (heading_element 2)
       turndownOptions)
  ∧ replacement_call (of_string "Intro [](#intro)")
      {| nodeName := heading_tag 2; outerHTML := of_string "<h2>Intro</h2>" |}
      {| headingStyle := "setext"; codeBlockStyle := "indented" |}
      (after_call busy_world)
    = (after_call (after_call busy_world),
       replacement (of_string "Intro [](#intro)") (heading_element 2)
         turndownOptions)
  ∧ replacement_call (of_string "Intro [](#intro)")
      {| nodeName := heading_tag 2; outerHTML := of_string "<h2>Intro</h2>" |}
      {| headingStyle := "setext"; codeBlockStyle := "indented" |}
      fresh_world
    = (after_call fresh_world,
       replacement (of_string "Intro [](#intro)") (heading_element 2)
         turndownOptions).
Proof. apply heading_rule_deterministic. reflexivity. Defined.

End Replace.

End RuntimeFacts.

(** ** Part 12: more facts about the commands and the scheduled sync *)

Module PluginMore.
Import Plugin Omnivore PluginFacts.

#[local] Open Scope Z_scope.
#[local] Open Scope string_scope.
#[local] Open Scope list_scope.

Section Startup.

Lemma first_install_interval : first_install !! "syncInterval" = Some (VString "0").
Proof. vm_compute. reflexivity. Qed.

Lemma effective_interval (stored : gmap string Value) :
  ∃ v, (stored ∪ first_install) !! "syncInterval" = Some v
       ∧ v = default (VString "0") (stored !! "syncInterval").
Proof.
  rewrite lookup_union, first_install_interval.
  destruct (stored !! "syncInterval") as [v|]; cbn; eauto.
Qed.

(** The interval as the store can hold it, as text or as a number: the
    timers the set-up makes of it. The product is rounded twice, as the
    code computes it. *)
Lemma interval_forms :
  List.map timers_for
    [VString "5"; VString " 5"; VString "+5"; VString "5.0"; VString "0x5";
     VNumber 5]
  = List.repeat [{| callback := scheduled_callback;
                    delay := JsNumber.of_Z 300000 |}] 6
  ∧ List.map timers_for
      [VString "0"; VString ""; VString "-5"; VString "abc"; VString "5 min";
       VString "-Infinity"; VNumber 0; VNumber (-1)]
    = List.repeat [] 8
  ∧ List.map delay
      (concat (List.map timers_for
                 [VString "1e1"; VString "0.5"; VString "Infinity";
                  VString "1e400"; VNumber 150119987579017]))
    = [JsNumber.of_Z 600000; JsNumber.of_Z 30000; JsNumber.Infinity;
       JsNumber.Infinity; JsNumber.of_Z 9007199254741019648]
  ∧ JsNumber.of_Z 9007199254741019648
    = S754_finite false 8796093022208027 10.
Proof. split_and!; vm_compute; reflexivity. Qed.

Lemma step_single (a : Z) (t : Task) (h : Host) :
  step (Settle 0 a) {| host := h; pool := [t] |}
  = '(h', t') ← settle a t h; Some {| host := h'; pool := [t'] |}.
Proof. cbn. by destruct (settle a t h) as [[h' t']|]. Qed.

Lemma startup_state (stored : gmap string Value) :
  ∃ v, (stored ∪ first_install) !! "syncInterval" = Some v
  ∧ run startup (load stored)
    = Some {| host := {| settings := stored ∪ first_install;
                         sections := ["omnivoreSync"];
                         commands := registered_commands;
                         menuItems := created_menuItems;
                         listeners := [onChange_listener];
                         timers := timers_for v;
                         actions := [Logged "Omnivore Sync plugin started"] |};
              pool := [Return] |}.
Proof.
  destruct (effective_interval stored) as (v & Hv & _).
  exists v. split; [done|].
  unfold startup, load, spawn, onStart, setupScheduledSync.
  cbn [List.repeat run drive host pool blank app].
  repeat (rewrite step_single;
          cbn [settle drive mbind option_bind host pool with_settings add_section
                 add_command add_menuItem add_listener add_timer record settings
                 sections commands menuItems listeners timers actions app]).
  change (list_to_map settingItems) with first_install.
  change (settings (blank stored)) with stored.
  rewrite Hv.
  cbn [settle drive mbind option_bind host pool with_settings add_section
         add_command add_menuItem add_listener add_timer record settings
         sections commands menuItems listeners timers actions app].
  unfold timers_for.
  destruct (js_gt v 0);
    repeat (try rewrite step_single;
          cbn [settle drive mbind option_bind host pool with_settings add_section
                 add_command add_menuItem add_listener add_timer record settings
                 sections commands menuItems listeners timers actions app run]);
    reflexivity.
Qed.
End Startup.

Section Steady.
Implicit Types (s : Sys) (h : Host) (t : Task).

Lemma steady_scheduled_callback : steady scheduled_callback.
Proof. intros v. cbn. by destruct (truthy v). Qed.

Lemma steady_sync : steady syncOmnivoreArticles.
Proof. intros v. cbn. by destruct (truthy v). Qed.

Lemma steady_reset : steady resetOmnivoreSyncData.
Proof.
  intros z. destruct (Z.eqb z 0); cbn; [|done].
  unfold reset_writes. rewrite !elem_of_cons. naive_solver.
Qed.

Lemma steady_listener : steady onChange_listener.
Proof. intros v. cbn. by destruct (js_gt v 0). Qed.

Lemma drive_steady t h :
  steady t →
  steady (drive t h).2
  ∧ settings (drive t h).1 = settings h
  ∧ registrations (drive t h).1 = registrations h
  ∧ (Forall (λ tm, callback tm = scheduled_callback) (timers h) →
     Forall (λ tm, callback tm = scheduled_callback) (timers (drive t h).1)).
Proof.
  revert h. induction t as [| | | | | | | | | |m k IH|m k IH|key k IH|cb _ d k IH
                              |v n k1 IH1 k2 IH2];
    intros h Ht; cbn [drive fst snd]; try done.
  - apply (IH (record (Logged m) h) Ht).
  - apply (IH (record (LoggedError m) h) Ht).
  - apply (IH _ (record (ClientConstructed key) h) (Ht _)).
  - destruct Ht as [-> Hk].
    destruct (IH (add_timer {| callback := scheduled_callback;
                               delay := minutes_to_ms d |} h) Hk)
      as (H1 & H2 & H3 & H4).
    split_and!; [done..|]. intros Htm. apply H4. cbn.
    apply Forall_app. split; [done|]. by apply Forall_singleton.
  - destruct Ht as [Ht1 Ht2].
    destruct (js_gt v n); [by apply IH1|by apply IH2].
Qed.

Lemma settle_steady a t h h' t' :
  settle a t h = Some (h', t') → steady t →
  steady t'
  ∧ settings_step (settings h) (settings h')
  ∧ registrations h' = registrations h
  ∧ (Forall (λ tm, callback tm = scheduled_callback) (timers h) →
     Forall (λ tm, callback tm = scheduled_callback) (timers h')).
Proof.
  intros E Ht.
  assert (∀ t0 h0, drive t0 h0 = (h', t') → steady t0 →
            steady t' ∧ settings h' = settings h0
            ∧ registrations h' = registrations h0
            ∧ (Forall (λ tm, callback tm = scheduled_callback) (timers h0) →
               Forall (λ tm, callback tm = scheduled_callback) (timers h'))) as Hd.
  { intros t0 h0 E0 H0. pose proof (drive_steady t0 h0 H0) as H.
    by rewrite E0 in H. }
  destruct t; cbn [settle] in E; try done.
  - destruct (settings h !! key).
    + injection E as E. destruct (Hd _ _ E (Ht _)) as (H1 & H2 & H3 & H4).
      split_and!; [done|by left; rewrite H2|done|done].
    + injection E as <- <-. split_and!; [done|by left|done|done].
  - injection E as E. destruct Ht as [Hkv Hk].
    destruct (Hd _ _ E Hk) as (H1 & H2 & H3 & H4).
    split_and!; [done| |done|done].
    right. exists (key, v). split; [done|]. by rewrite H2.
  - injection E as E. destruct (Hd _ _ E (Ht _)) as (H1 & H2 & H3 & H4).
    split_and!; [done|by left; rewrite H2|done|done].
  - injection E as E. destruct (Hd _ _ E Ht) as (H1 & H2 & H3 & H4).
    split_and!; [done|by left; rewrite H2|done|done].
Qed.

Lemma spawn_steady t s :
  steady t → steady_sys s →
  steady_sys (spawn t s)
  ∧ settings (host (spawn t s)) = settings (host s)
  ∧ registrations (host (spawn t s)) = registrations (host s).
Proof.
  intros Ht (Hp & Hc & Hl & Htm). unfold spawn.
  pose proof (drive_steady t (host s) Ht) as H.
  destruct (drive t (host s)) as [h t']. destruct H as (H1 & H2 & H3 & H4).
  cbn [fst snd] in *. injection H3 as E1 E2 E3 E4.
  split_and!; [|done|by cbn; unfold registrations; rewrite E1, E2, E3, E4].
  split_and!; cbn.
  - apply Forall_app. split; [done|]. by apply Forall_singleton.
  - by rewrite E2.
  - by rewrite E4.
  - auto.
Qed.

Lemma step_steady e s s' :
  step e s = Some s' → steady_sys s →
  steady_sys s'
  ∧ registrations (host s') = registrations (host s)
  ∧ ((∃ key v, e = Write key v) ∨ settings_step (settings (host s)) (settings (host s'))).
Proof.
  intros E Hs. pose proof Hs as (Hp & Hc & Hl & Htm).
  destruct e as [name|j a|i|key v|]; cbn [step] in E.
  - destruct (commands (host s) !! name) as [t|] eqn:Ec; [|done].
    injection E as <-.
    destruct (spawn_steady t s) as (H1 & H2 & H3); [by apply (Hc name)|done|].
    split_and!; [done|done|]. right. left. done.
  - destruct (pool s !! j) as [t|] eqn:Ej; [|done]. cbn in E.
    destruct (settle a t (host s)) as [[h t']|] eqn:Es; [|done].
    injection E as <-.
    destruct (settle_steady _ _ _ _ _ Es) as (H1 & H2 & H3 & H4).
    { exact (Forall_lookup_1 _ _ _ _ Hp Ej). }
    injection H3 as E1 E2 E3 E4.
    split_and!; [|by cbn; unfold registrations; rewrite E1, E2, E3, E4|by right].
    split_and!; cbn.
    + by apply Forall_insert.
    + by rewrite E2.
    + by rewrite E4.
    + auto.
  - destruct (timers (host s) !! i) as [tm|] eqn:Ei; [|done].
    injection E as <-.
    pose proof (Forall_lookup_1 _ _ _ _ Htm Ei) as Hcb. cbn in Hcb.
    destruct (spawn_steady (callback tm) s) as (H1 & H2 & H3);
      [rewrite Hcb; apply steady_scheduled_callback|done|].
    split_and!; [done|done|]. right. left. done.
  - injection E as <-. split_and!; [done|done|]. left. eauto.
  - injection E as <-.
    assert (∀ l s0, Forall steady l → steady_sys s0 →
              steady_sys (foldl (λ s1 t, spawn t s1) s0 l)
              ∧ settings (host (foldl (λ s1 t, spawn t s1) s0 l)) = settings (host s0)
              ∧ registrations (host (foldl (λ s1 t, spawn t s1) s0 l))
                = registrations (host s0)) as Hfold.
    { induction l as [|t l IH]; intros s0 Hl0 Hs0; [done|].
      apply Forall_cons in Hl0 as [Ht Hl0]. cbn [foldl].
      destruct (spawn_steady t s0 Ht Hs0) as (H1 & H2 & H3).
      destruct (IH (spawn t s0) Hl0 H1) as (H4 & H5 & H6).
      split_and!; [done|congruence|congruence]. }
    destruct (Hfold (listeners (host s)) s Hl Hs) as (H1 & H2 & H3).
    split_and!; [done|done|]. right. left. done.
Qed.

Lemma started_steady (stored : gmap string Value) s0 :
  run startup (load stored) = Some s0 → steady_sys s0.
Proof.
  destruct (startup_state stored) as (v & _ & ->). intros [= <-].
  split_and!; cbn.
  - by apply Forall_singleton.
  - unfold registered_commands. apply map_Forall_insert_2; [apply steady_sync|].
    apply map_Forall_insert_2; [apply steady_reset|]. apply map_Forall_empty.
  - apply Forall_singleton, steady_listener.
  - unfold timers_for. destruct (js_gt v 0); [|by constructor].
    by apply Forall_singleton.
Qed.

Lemma run_steady es s s' :
  run es s = Some s' → steady_sys s →
  steady_sys s' ∧ registrations (host s') = registrations (host s).
Proof.
  revert s. induction es as [|e es IH]; intros s; cbn [run].
  - by intros [= <-].
  - destruct (step e s) as [s1|] eqn:E; [|done]. cbn. intros H Hs.
    destruct (step_steady e s s1 E Hs) as (H1 & H2 & _).
    destruct (IH s1 H H1) as (H3 & H4). split; [done|congruence].
Qed.
End Steady.

Section More.
Implicit Types (s : Sys) (h : Host) (t : Task).

(** X7. Whatever settings the host has stored, [onStart] runs to its end
    through its eight awaited calls: the stored settings are kept and the
    registered values fill the rest, the section, the two commands, the
    two menu items and the one settings listener are registered, a single
    timer is set when the interval in effect is positive and none
    otherwise, and the start is logged. *)
Theorem onStart_completes (stored : gmap string Value) :
  ∃ v, (stored ∪ first_install) !! "syncInterval" = Some v
  ∧ run startup (load stored)
    = Some {| host := {| settings := stored ∪ first_install;
                         sections := ["omnivoreSync"];
                         commands := registered_commands;
                         menuItems := created_menuItems;
                         listeners := [onChange_listener];
                         timers := timers_for v;
                         actions := [Logged "Omnivore Sync plugin started"] |};
              pool := [Return] |}.
Proof. apply startup_state. Qed.

(** X8. Once [onStart] has finished, nothing that happens changes what is
    registered: the section, the two commands, the two menu items and the
    single settings listener stay as they are. *)
Theorem registrations_fixed_after_start (stored : gmap string Value)
    (es : list Event) (s0 s : Sys) :
  run startup (load stored) = Some s0 →
  run es s0 = Some s →
  registrations (host s)
  = (["omnivoreSync"], registered_commands, created_menuItems,
     [onChange_listener]).
Proof.
  intros Hstart Hrun.
  destruct (run_steady es s0 s Hrun (started_steady stored s0 Hstart)) as [_ ->].
  destruct (startup_state stored) as (v & _ & E). rewrite E in Hstart.
  by injection Hstart as <-.
Qed.

Lemma registrations_fixed_after_start_witness :
  registrations (host two_runs_in_progress)
  = (["omnivoreSync"], registered_commands, created_menuItems,
     [onChange_listener]).
Proof.
  apply (registrations_fixed_after_start ∅
           (configure "k" 5
            ++ [Execute "syncOmnivoreArticles"; Settle 2 0] ++ timer_fires)
           installed);
    vm_compute; reflexivity.
Defined.

(** X9. Once [onStart] has finished, the plugin itself changes a setting
    only through the reset: every step other than a write by another
    party leaves the store as it is or stores the registered value of one
    of [lastSyncDate], [syncedItems] and [syncedHighlights]. *)
Theorem only_the_reset_writes_settings (stored : gmap string Value)
    (es : list Event) (e : Event) (s0 s s' : Sys) :
  run startup (load stored) = Some s0 →
  run es s0 = Some s →
  step e s = Some s' →
  (∀ key v, e ≠ Write key v) →
  settings_step (settings (host s)) (settings (host s')).
Proof.
  intros Hstart Hrun Hstep He.
  destruct (run_steady es s0 s Hrun (started_steady stored s0 Hstart)) as [Hs _].
  destruct (step_steady e s s' Hstep Hs) as (_ & _ & [(key & v & ->)|H]); [|done].
  by destruct (He key v).
Qed.

Lemma only_the_reset_writes_settings_witness :
  settings_step
    (settings (host (after [Execute "resetOmnivoreSyncData"; Settle 1 0] returning)))
    (settings (host half_reset)).
Proof.
  apply (only_the_reset_writes_settings synced_before
           [Execute "resetOmnivoreSyncData"; Settle 1 0] (Settle 1 0) returning);
    try (vm_compute; reflexivity).
  intros key v. discriminate.
Defined.

(** X11. Every timer that exists at any time after the plugin is loaded
    runs the scheduled sync callback and has a positive period. *)
Theorem timers_are_scheduled_syncs (stored : gmap string Value)
    (es : list Event) (s : Sys) (i : nat) (tm : Timer) :
  run es (load stored) = Some s →
  timers (host s) !! i = Some tm →
  scheduled_timer tm.
Proof.
  intros Hrun Hi.
  destruct (run_ok _ _ _ Hrun (load_ok stored)) as [(Htimers & _) _].
  exact (Forall_lookup_1 _ _ _ _ Htimers Hi).
Qed.

Lemma timers_are_scheduled_syncs_witness :
  scheduled_timer {| callback := scheduled_callback; delay := JsNumber.of_Z 600000 |}.
Proof.
  apply (timers_are_scheduled_syncs ∅ (interval_changed 10) (reconfigured 10) 1);
    vm_compute; reflexivity.
Defined.

Lemma changed_spawns_listener s :
  listeners (host s) = [onChange_listener] →
  step Changed s
  = Some {| host := host s; pool := pool s ++ [onChange_listener] |}.
Proof. intros Hl. cbn [step]. rewrite Hl. reflexivity. Qed.

(** X12. [k] settings changes in a row, each handled by the listener, add
    [k] timers at the period of the interval in effect when that is
    positive, and none when it is not; the settings are not touched. *)
Theorem timers_after_changes (k : nat) (s : Sys) (v : Value) :
  listeners (host s) = [onChange_listener] →
  settings (host s) !! "syncInterval" = Some v →
  ∃ s', run (changes (length (pool s)) k) s = Some s'
        ∧ timers (host s')
          = timers (host s) ++ concat (replicate k (timers_for v))
        ∧ pool s' = pool s ++ replicate k Return
        ∧ settings (host s') = settings (host s).
Proof.
  revert s. induction k as [|k IH]; intros s Hl Hv.
  - exists s. cbn. by rewrite !app_nil_r.
  - cbn [changes run]. rewrite (changed_spawns_listener s Hl). cbn [mbind option_bind].
    rewrite (listener_sets_timer _ (length (pool s)) 0 v);
      [|apply lookup_snoc|done].
    cbn [mbind option_bind host pool]. rewrite list_insert_snoc.
    set (s1 := {| host := _; pool := _ |}).
    assert (length (pool s1) = S (length (pool s))) as Hlen.
    { unfold s1. cbn. rewrite length_app. cbn. lia. }
    rewrite <- Hlen.
    destruct (IH s1) as (s' & Hrun & Htm & Hp & Hs).
    { unfold s1. cbn. by destruct (js_gt v 0). }
    { unfold s1. cbn. by destruct (js_gt v 0). }
    exists s'. split; [done|]. rewrite Htm, Hp, Hs.
    unfold s1, timers_for. cbn [host pool replicate concat].
    destruct (js_gt v 0); cbn; rewrite <- ?app_assoc; done.
Qed.

Lemma timers_after_changes_witness :
  (∃ s', run (changes (length (pool (reconfigured 10))) 3) (reconfigured 10)
         = Some s'
         ∧ List.map delay (timers (host s'))
           = [JsNumber.of_Z 300000; JsNumber.of_Z 600000; JsNumber.of_Z 600000;
              JsNumber.of_Z 600000; JsNumber.of_Z 600000])
  ∧ (∃ s', run (changes (length (pool exponent_interval)) 2) exponent_interval
           = Some s'
           ∧ List.map delay (timers (host s'))
             = [JsNumber.of_Z 600000; JsNumber.of_Z 600000;
                JsNumber.of_Z 600000]).
Proof.
  split.
  - destruct (timers_after_changes 3 (reconfigured 10) (VNumber 10))
      as (s' & Hrun & Htimers & _); [vm_compute; reflexivity..|].
    exists s'. split; [exact Hrun|]. rewrite Htimers. vm_compute. reflexivity.
  - destruct (timers_after_changes 2 exponent_interval (VString "1e1"))
      as (s' & Hrun & Htimers & _); [vm_compute; reflexivity..|].
    exists s'. split; [exact Hrun|]. rewrite Htimers. vm_compute. reflexivity.
Defined.



Lemma run_reset_to_end (s : Sys) (a1 a2 a3 a4 : Z) :
  commands (host s) !! "resetOmnivoreSyncData" = Some resetOmnivoreSyncData →
  run (reset_confirmed (length (pool s)) a1 a2 a3 ++ [Settle (length (pool s)) a4]) s
  = Some {| host := reset_host (host s); pool := pool s ++ [Return] |}.
Proof.
  intros Hcmd.
  unfold reset_confirmed. cbn [app run step]. rewrite Hcmd. cbn.
  rewrite lookup_snoc. cbn. rewrite list_insert_snoc, lookup_snoc. cbn.
  rewrite list_insert_snoc, lookup_snoc. cbn.
  rewrite list_insert_snoc, lookup_snoc. cbn.
  rewrite list_insert_snoc, lookup_snoc. cbn.
  rewrite list_insert_snoc. unfold reset_host, record, with_settings. cbn.
  rewrite <- !app_assoc. reflexivity.
Qed.

(** The confirmed reset, call by call. *)
Lemma run_reset_in_order (s : Sys) (a1 a2 a3 : Z) :
  commands (host s) !! "resetOmnivoreSyncData" = Some resetOmnivoreSyncData →
  let j := length (pool s) in
  let reset := Execute "resetOmnivoreSyncData" in
  let asked := record (DialogShown reset_question) (host s) in
  let written1 := with_settings <["lastSyncDate" := VString ""]> asked in
  let written2 := with_settings <["syncedItems" := VString "[]"]> written1 in
  run [reset] s
  = Some {| host := asked; pool := pool s ++ [resetOmnivoreSyncData] |}
  ∧ run [reset; Settle j 0] s
    = Some {| host := asked; pool := pool s ++ [reset_write1] |}
  ∧ run [reset; Settle j 0; Settle j a1] s
    = Some {| host := written1; pool := pool s ++ [reset_write2] |}
  ∧ run [reset; Settle j 0; Settle j a1; Settle j a2] s
    = Some {| host := written2; pool := pool s ++ [reset_write3] |}
  ∧ run (reset_confirmed j a1 a2 a3) s
    = Some {| host := reset_host (host s); pool := pool s ++ [reset_closing] |}.
Proof.
  intros Hcmd j reset asked written1 written2. subst j reset.
  unfold reset_confirmed. cbn [run step]. rewrite Hcmd. cbn.
  split_and!; [done|..]; rewrite lookup_snoc; cbn; rewrite list_insert_snoc;
    [done|..]; rewrite lookup_snoc; cbn; rewrite list_insert_snoc;
    [done|..]; rewrite lookup_snoc; cbn; rewrite list_insert_snoc;
    [done|]; rewrite lookup_snoc; cbn; rewrite list_insert_snoc.
  unfold reset_host, record, with_settings. cbn.
  rewrite <- !app_assoc. reflexivity.
Qed.

(** X14. The confirmed reset run to its end, call by call. The question
    is shown first and nothing is written while it is open; after OK the
    three values are written in the order [lastSyncDate], [syncedItems],
    [syncedHighlights], each write awaited before the next is issued and
    nothing logged or shown in between; once the third is settled the
    reset is logged and the closing message is shown, and the task waits
    for it; when that message is dismissed the task ends and the host is
    as the closing message left it. No timer is set or removed, nothing
    is registered, no client is constructed and no run is started. *)
Theorem reset_run_to_end (s : Sys) (a1 a2 a3 a4 : Z) :
  commands (host s) !! "resetOmnivoreSyncData" = Some resetOmnivoreSyncData →
  let j := length (pool s) in
  let reset := Execute "resetOmnivoreSyncData" in
  let asked := record (DialogShown reset_question) (host s) in
  let written1 := with_settings <["lastSyncDate" := VString ""]> asked in
  let written2 := with_settings <["syncedItems" := VString "[]"]> written1 in
  run [reset] s
  = Some {| host := asked; pool := pool s ++ [resetOmnivoreSyncData] |}
  ∧ run [reset; Settle j 0] s
    = Some {| host := asked; pool := pool s ++ [reset_write1] |}
  ∧ run [reset; Settle j 0; Settle j a1] s
    = Some {| host := written1; pool := pool s ++ [reset_write2] |}
  ∧ run [reset; Settle j 0; Settle j a1; Settle j a2] s
    = Some {| host := written2; pool := pool s ++ [reset_write3] |}
  ∧ run (reset_confirmed j a1 a2 a3) s
    = Some {| host := reset_host (host s); pool := pool s ++ [reset_closing] |}
  ∧ run (reset_confirmed j a1 a2 a3 ++ [Settle j a4]) s
    = Some {| host := reset_host (host s); pool := pool s ++ [Return] |}
  ∧ in_flight {| host := reset_host (host s); pool := pool s ++ [Return] |}
    = in_flight s.
Proof.
  intros Hcmd j reset asked written1 written2.
  destruct (run_reset_in_order s a1 a2 a3 Hcmd) as (H1 & H2 & H3 & H4 & H5).
  split_and!; [done..|by apply run_reset_to_end|].
  unfold in_flight. cbn [pool]. rewrite List.filter_app. cbn.
  rewrite length_app. cbn. lia.
Qed.

Lemma reset_run_to_end_witness :
  run [Execute "resetOmnivoreSyncData"; Settle (length (pool returning)) 0;
       Settle (length (pool returning)) 0] returning
  = Some {| host := with_settings <["lastSyncDate" := VString ""]>
                      (record (DialogShown reset_question) (host returning));
            pool := pool returning ++ [reset_write2] |}
  ∧ run (reset_confirmed (length (pool returning)) 0 0 0
         ++ [Settle (length (pool returning)) 0]) returning
    = Some {| host := reset_host (host returning);
              pool := pool returning ++ [Return] |}.
Proof.
  destruct (reset_run_to_end returning 0 0 0 0) as (_ & _ & H3 & _ & _ & H6 & _);
    [vm_compute; reflexivity|].
  split; [exact H3|exact H6].
Defined.

Lemma cleared_idem (m : gmap string Value) : cleared (cleared m) = cleared m.
Proof.
  apply map_eq. intros key. destruct (decide (key ∈ sync_state_keys)).
  - by rewrite !cleared_lookup_state.
  - by rewrite !cleared_lookup_other.
Qed.

(** X15. Resetting twice is the same as resetting once: a second
    confirmed reset leaves the store exactly as the first one left it. *)
Theorem reset_twice (s : Sys) (a1 a2 a3 a4 b1 b2 b3 b4 : Z) :
  commands (host s) !! "resetOmnivoreSyncData" = Some resetOmnivoreSyncData →
  let j := length (pool s) in
  ∃ s1 s2,
    run (reset_confirmed j a1 a2 a3 ++ [Settle j a4]) s = Some s1
    ∧ run (reset_confirmed (S j) b1 b2 b3 ++ [Settle (S j) b4]) s1 = Some s2
    ∧ settings (host s2) = settings (host s1)
    ∧ settings (host s1) = cleared (settings (host s)).
Proof.
  intros Hcmd j. eexists _, _. split; [by apply run_reset_to_end|].
  split_and!.
  - replace (S j) with (length (pool s ++ [Return])).
    + by apply run_reset_to_end.
    + rewrite length_app. cbn. unfold j. lia.
  - cbn. apply cleared_idem.
  - done.
Qed.

Lemma reset_twice_witness :
  ∃ s1 s2,
    run (reset_confirmed (length (pool returning)) 0 0 0
         ++ [Settle (length (pool returning)) 0]) returning = Some s1
    ∧ run (reset_confirmed (S (length (pool returning))) 0 0 0
           ++ [Settle (S (length (pool returning))) 0]) s1 = Some s2
    ∧ settings (host s2) = settings (host s1)
    ∧ settings (host s1) = cleared (settings (host returning)).
Proof.
  apply (reset_twice returning 0 0 0 0 0 0 0 0). vm_compute. reflexivity.
Defined.

End More.

Section Guard.
Implicit Types (s : Sys) (h : Host) (t : Task).

Lemma guarded_scheduled_callback : key_guarded scheduled_callback.
Proof. right. eexists. split; [done|]. intros v Hv. cbn. by rewrite Hv. Qed.

Lemma guarded_sync : key_guarded syncOmnivoreArticles.
Proof. right. eexists. split; [done|]. intros v Hv. cbn. by rewrite Hv. Qed.

Lemma guarded_reset : key_guarded resetOmnivoreSyncData.
Proof. left. intros z. destruct (Z.eqb z 0); cbn; [|done]. by split_and!. Qed.

Lemma guarded_listener : key_guarded onChange_listener.
Proof. left. intros v. cbn. by destruct (js_gt v 0). Qed.

Lemma launches_record a h :
  launches (record a h) = launches h ++ (if is_launch a then [a] else []).
Proof. unfold launches. cbn. rewrite List.filter_app. cbn. by destruct (is_launch a). Qed.

Lemma drive_quiet t h :
  quiet t →
  quiet (drive t h).2
  ∧ launches (drive t h).1 = launches h
  ∧ settings (drive t h).1 = settings h
  ∧ commands (drive t h).1 = commands h
  ∧ listeners (drive t h).1 = listeners h
  ∧ (Forall (λ tm, callback tm = scheduled_callback) (timers h) →
     Forall (λ tm, callback tm = scheduled_callback) (timers (drive t h).1)).
Proof.
  revert h. induction t as [| | | | | | | | | |m k IH|m k IH|key k IH|cb _ d k IH
                              |v n k1 IH1 k2 IH2];
    intros h Ht; cbn [drive fst snd]; try done.
  - split_and!; try done. rewrite launches_record. cbn. by rewrite app_nil_r.
  - destruct (IH (record (Logged m) h) Ht) as (H1 & H2 & H3).
    split_and!; try apply H3; [done|]. rewrite H2, launches_record. cbn.
    by rewrite app_nil_r.
  - destruct (IH (record (LoggedError m) h) Ht) as (H1 & H2 & H3).
    split_and!; try apply H3; [done|]. rewrite H2, launches_record. cbn.
    by rewrite app_nil_r.
  - destruct Ht as [-> Hk].
    destruct (IH (add_timer {| callback := scheduled_callback;
                               delay := minutes_to_ms d |} h) Hk)
      as (H1 & H2 & H3 & H4 & H5 & H6).
    split_and!; [done..|]. intros Htm. apply H6. cbn.
    apply Forall_app. split; [done|]. by apply Forall_singleton.
  - destruct Ht as [Ht1 Ht2].
    destruct (js_gt v n); [by apply IH1|by apply IH2].
Qed.

Lemma settle_guarded a t h h' t' :
  settle a t h = Some (h', t') → pool_guarded t → key_is_empty (settings h) →
  quiet t'
  ∧ launches h' = launches h
  ∧ (key_is_empty (settings h'))
  ∧ commands h' = commands h
  ∧ listeners h' = listeners h
  ∧ (Forall (λ tm, callback tm = scheduled_callback) (timers h) →
     Forall (λ tm, callback tm = scheduled_callback) (timers h')).
Proof.
  intros E Ht Hkey.
  assert (∀ t0 h0, drive t0 h0 = (h', t') → quiet t0 →
            launches h0 = launches h → key_is_empty (settings h0) →
            commands h0 = commands h → listeners h0 = listeners h →
            (Forall (λ tm, callback tm = scheduled_callback) (timers h) →
             Forall (λ tm, callback tm = scheduled_callback) (timers h0)) →
            quiet t'
            ∧ launches h' = launches h
            ∧ (key_is_empty (settings h'))
            ∧ commands h' = commands h
            ∧ listeners h' = listeners h
            ∧ (Forall (λ tm, callback tm = scheduled_callback) (timers h) →
               Forall (λ tm, callback tm = scheduled_callback) (timers h'))) as Hd.
  { intros t0 h0 E0 H0 Hl Hk Hc Hli Htm.
    pose proof (drive_quiet t0 h0 H0) as H. rewrite E0 in H. cbn [fst snd] in H.
    destruct H as (H1 & H2 & H3 & H4 & H5 & H6).
    split_and!; [done|congruence|by rewrite H3|congruence|congruence|auto]. }
  assert (∀ m, key_is_empty (settings (record m h))) as Hrec by done.
  destruct Ht as [[Hq | (k & -> & Hk)] | (c & k & -> & Hq)].
  - destruct t; cbn [settle] in E; try done.
    + destruct (settings h !! key).
      * injection E as E. by apply (Hd _ _ E (Hq _)).
      * injection E as <- <-. split_and!; try done.
        rewrite launches_record. cbn. by rewrite app_nil_r.
    + injection E as E. destruct Hq as [Hne Hq].
      apply (Hd _ _ E Hq); try done.
      intros v0. cbn. rewrite lookup_insert_ne by done. apply Hkey.
    + injection E as E. by apply (Hd _ _ E (Hq _)).
  - cbn [settle] in E. destruct (settings h !! "omnivoreApiKey") as [v|] eqn:Ev.
    + injection E as E. apply (Hd _ _ E); try done. apply Hk. by apply Hkey.
    + injection E as <- <-. split_and!; try done.
      rewrite launches_record. cbn. by rewrite app_nil_r.
  - cbn [settle] in E. injection E as E. apply (Hd _ _ E Hq); try done.
    rewrite launches_record. cbn. by rewrite app_nil_r.
Qed.

Lemma key_guarded_pool t : key_guarded t → pool_guarded t.
Proof. by left. Qed.

Lemma quiet_guarded t : quiet t → pool_guarded t.
Proof. intros. left. by left. Qed.

Lemma spawn_guarded t s :
  key_guarded t → guarded_sys s →
  guarded_sys (spawn t s)
  ∧ launches (host (spawn t s)) = launches (host s)
  ∧ settings (host (spawn t s)) = settings (host s).
Proof.
  intros Ht (Hp & Hc & Hl & Htm). unfold spawn.
  destruct Ht as [Hq | (k & -> & Hk)].
  - pose proof (drive_quiet t (host s) Hq) as H.
    destruct (drive t (host s)) as [h t']. cbn [fst snd] in H.
    destruct H as (H1 & H2 & H3 & H4 & H5 & H6).
    split_and!; [|done|done]. split_and!; cbn.
    + apply Forall_app. split; [done|]. by apply Forall_singleton, quiet_guarded.
    + by rewrite H4.
    + by rewrite H5.
    + auto.
  - cbn. split_and!; [|done|done]. split_and!; cbn; [|done..].
    apply Forall_app. split; [done|]. apply Forall_singleton. left. right. eauto.
Qed.

Lemma step_guarded e s s' :
  step e s = Some s' → (∀ v, e ≠ Write "omnivoreApiKey" v) →
  guarded_sys s → key_is_empty (settings (host s)) →
  guarded_sys s' ∧ key_is_empty (settings (host s'))
  ∧ launches (host s') = launches (host s).
Proof.
  intros E He Hs Hkey. pose proof Hs as (Hp & Hc & Hl & Htm).
  destruct e as [name|j a|i|key v|]; cbn [step] in E.
  - destruct (commands (host s) !! name) as [t|] eqn:Ec; [|done].
    injection E as <-.
    destruct (spawn_guarded t s) as (H1 & H2 & H3); [by apply (Hc name)|done|].
    split_and!; [done|by rewrite H3|done].
  - destruct (pool s !! j) as [t|] eqn:Ej; [|done]. cbn in E.
    destruct (settle a t (host s)) as [[h t']|] eqn:Es; [|done].
    injection E as <-.
    destruct (settle_guarded _ _ _ _ _ Es) as (H1 & H2 & H3 & H4 & H5 & H6);
      [exact (Forall_lookup_1 _ _ _ _ Hp Ej)|done|].
    split_and!; [|done|done]. split_and!; cbn.
    + by apply Forall_insert, quiet_guarded.
    + by rewrite H4.
    + by rewrite H5.
    + auto.
  - destruct (timers (host s) !! i) as [tm|] eqn:Ei; [|done].
    injection E as <-.
    pose proof (Forall_lookup_1 _ _ _ _ Htm Ei) as Hcb. cbn in Hcb.
    destruct (spawn_guarded (callback tm) s) as (H1 & H2 & H3);
      [rewrite Hcb; apply guarded_scheduled_callback|done|].
    split_and!; [done|by rewrite H3|done].
  - injection E as <-. split_and!; [done| |done].
    intros v0. cbn. rewrite lookup_insert_ne; [apply Hkey|].
    intros ->. by apply (He v).
  - injection E as <-.
    assert (∀ l s0, Forall key_guarded l → guarded_sys s0 →
              guarded_sys (foldl (λ s1 t, spawn t s1) s0 l)
              ∧ launches (host (foldl (λ s1 t, spawn t s1) s0 l)) = launches (host s0)
              ∧ settings (host (foldl (λ s1 t, spawn t s1) s0 l))
                = settings (host s0)) as Hfold.
    { induction l as [|t l IH]; intros s0 Hl0 Hs0; [done|].
      apply Forall_cons in Hl0 as [Ht Hl0]. cbn [foldl].
      destruct (spawn_guarded t s0 Ht Hs0) as (H1 & H2 & H3).
      destruct (IH (spawn t s0) Hl0 H1) as (H4 & H5 & H6).
      split_and!; [done|congruence|congruence]. }
    destruct (Hfold (listeners (host s)) s Hl Hs) as (H1 & H2 & H3).
    split_and!; [done|by rewrite H3|done].
Qed.

Lemma run_guarded es s s' :
  run es s = Some s' → key_never_stored es →
  guarded_sys s → key_is_empty (settings (host s)) →
  launches (host s') = launches (host s).
Proof.
  revert s. induction es as [|e es IH]; intros s; cbn [run].
  - by intros [= <-].
  - destruct (step e s) as [s1|] eqn:E; [|done]. cbn.
    intros H [He Hes]%Forall_cons Hs Hkey.
    destruct (step_guarded e s s1 E He Hs Hkey) as (H1 & H2 & H3).
    rewrite <- H3. by apply IH.
Qed.

Lemma started_guarded (stored : gmap string Value) s0 :
  run startup (load stored) = Some s0 → guarded_sys s0 ∧ launches (host s0) = [].
Proof.
  destruct (startup_state stored) as (v & _ & ->). intros [= <-].
  split; [|done]. split_and!; cbn.
  - apply Forall_singleton. by apply quiet_guarded.
  - unfold registered_commands. apply map_Forall_insert_2; [apply guarded_sync|].
    apply map_Forall_insert_2; [apply guarded_reset|]. apply map_Forall_empty.
  - apply Forall_singleton, guarded_listener.
  - unfold timers_for. destruct (js_gt v 0); [|by constructor].
    by apply Forall_singleton.
Qed.

Lemma key_empty_spec (m : gmap string Value) :
  key_empty m = true → key_is_empty m.
Proof.
  unfold key_empty, key_is_empty. intros H v Hv. rewrite Hv in H.
  by apply negb_true_iff.
Qed.

Lemma never_stores_spec (key : string) (es : list Event) :
  forallb (λ e, negb (stores key e)) es = true →
  Forall (λ e, ∀ v, e ≠ Write key v) es.
Proof.
  induction es as [|e es IH]; cbn [forallb]; [by constructor|].
  intros [He Hes]%andb_prop. constructor; [|auto].
  intros v ->. cbn in He. by rewrite String.eqb_refl in He.
Qed.

(** X16. As long as the API key is empty, the plugin reaches the remote
    service in no way: after [onStart], over any sequence of commands,
    timer firings, settings changes and writes that does not store an API
    key, no client is constructed and [syncArticles] is never called. *)
Theorem no_sync_without_key (stored : gmap string Value) (es : list Event)
    (s0 s : Sys) :
  run startup (load stored) = Some s0 →
  key_empty (settings (host s0)) = true →
  key_untouched es = true →
  run es s0 = Some s →
  launches (host s) = [].
Proof.
  intros Hstart Hkey%key_empty_spec Hes%never_stores_spec Hrun.
  destruct (started_guarded stored s0 Hstart) as [Hs Hl].
  rewrite <- Hl. by apply (run_guarded es).
Qed.

Lemma no_sync_without_key_witness :
  launches
    (host (after [Execute "syncOmnivoreArticles"; Settle 1 0;
                  Write "syncInterval" (VNumber 5); Changed; Settle 2 0;
                  Fire 0; Settle 3 0] installed))
  = [].
Proof.
  apply (no_sync_without_key ∅
           [Execute "syncOmnivoreArticles"; Settle 1 0;
            Write "syncInterval" (VNumber 5); Changed; Settle 2 0;
            Fire 0; Settle 3 0] installed);
    vm_compute; reflexivity.
Defined.
End Guard.

Section Manual.
Implicit Types (s : Sys) (h : Host) (t : Task).

Lemma drive_timerless t h :
  timerless t →
  timerless (drive t h).2
  ∧ timers (drive t h).1 = timers h
  ∧ settings (drive t h).1 = settings h
  ∧ commands (drive t h).1 = commands h
  ∧ listeners (drive t h).1 = listeners h.
Proof.
  revert h. induction t as [| | | | | | | | | |m k IH|m k IH|key k IH|cb _ d k IH
                              |v n k1 IH1 k2 IH2];
    intros h Ht; cbn [drive fst snd]; try done.
  - apply (IH (record (Logged m) h) Ht).
  - apply (IH (record (LoggedError m) h) Ht).
  - apply (IH _ (record (ClientConstructed key) h) (Ht _)).
  - destruct Ht as [Ht1 Ht2].
    destruct (js_gt v n); [apply IH1|apply IH2]; auto.
Qed.

Lemma settle_manual a t h h' t' :
  settle a t h = Some (h', t') → interval_guarded t → interval_is_off (settings h) →
  timerless t'
  ∧ timers h' = timers h
  ∧ interval_is_off (settings h')
  ∧ commands h' = commands h
  ∧ listeners h' = listeners h.
Proof.
  intros E Ht Hoff.
  assert (∀ t0 h0, drive t0 h0 = (h', t') → timerless t0 →
            timers h0 = timers h → interval_is_off (settings h0) →
            commands h0 = commands h → listeners h0 = listeners h →
            timerless t' ∧ timers h' = timers h ∧ interval_is_off (settings h')
            ∧ commands h' = commands h ∧ listeners h' = listeners h) as Hd.
  { intros t0 h0 E0 H0 Htm Hk Hc Hli.
    pose proof (drive_timerless t0 h0 H0) as H. rewrite E0 in H. cbn [fst snd] in H.
    destruct H as (H1 & H2 & H3 & H4 & H5).
    split_and!; [done|congruence|by rewrite H3|congruence|congruence]. }
  destruct Ht as [Hq | (k & -> & Hk)].
  - destruct t; cbn [settle] in E; try done.
    + destruct (settings h !! key).
      * injection E as E. by apply (Hd _ _ E (Hq _)).
      * by injection E as <- <-.
    + injection E as E. destruct Hq as [Hne Hq].
      apply (Hd _ _ E Hq); try done.
      intros v0. cbn. rewrite lookup_insert_ne by done. apply Hoff.
    + injection E as E. by apply (Hd _ _ E (Hq _)).
    + injection E as E. by apply (Hd _ _ E Hq).
  - cbn [settle] in E. destruct (settings h !! "syncInterval") as [v|] eqn:Ev.
    + injection E as E. apply (Hd _ _ E); try done. apply Hk. by apply Hoff.
    + by injection E as <- <-.
Qed.

Lemma spawn_manual t s :
  interval_guarded t → manual_sys s →
  manual_sys (spawn t s) ∧ settings (host (spawn t s)) = settings (host s).
Proof.
  intros Ht (Hp & Hc & Hl & Htm). unfold spawn.
  destruct Ht as [Hq | (k & -> & Hk)].
  - pose proof (drive_timerless t (host s) Hq) as H.
    destruct (drive t (host s)) as [h t']. cbn [fst snd] in H.
    destruct H as (H1 & H2 & H3 & H4 & H5).
    split; [|done]. split_and!; cbn.
    + apply Forall_app. split; [done|]. apply Forall_singleton. by left.
    + by rewrite H4.
    + by rewrite H5.
    + congruence.
  - cbn. split; [|done]. split_and!; cbn; [|done..].
    apply Forall_app. split; [done|]. apply Forall_singleton. right. eauto.
Qed.

Lemma step_manual e s s' :
  step e s = Some s' → (∀ v, e ≠ Write "syncInterval" v) →
  manual_sys s → interval_is_off (settings (host s)) →
  manual_sys s' ∧ interval_is_off (settings (host s')) ∧ (∀ i, e ≠ Fire i).
Proof.
  intros E He Hs Hoff. pose proof Hs as (Hp & Hc & Hl & Htm).
  destruct e as [name|j a|i|key v|]; cbn [step] in E.
  - destruct (commands (host s) !! name) as [t|] eqn:Ec; [|done].
    injection E as <-.
    destruct (spawn_manual t s) as (H1 & H2); [by apply (Hc name)|done|].
    split_and!; [done|by rewrite H2|done].
  - destruct (pool s !! j) as [t|] eqn:Ej; [|done]. cbn in E.
    destruct (settle a t (host s)) as [[h t']|] eqn:Es; [|done].
    injection E as <-.
    destruct (settle_manual _ _ _ _ _ Es) as (H1 & H2 & H3 & H4 & H5);
      [exact (Forall_lookup_1 _ _ _ _ Hp Ej)|done|].
    split_and!; [|done|done]. split_and!; cbn.
    + apply Forall_insert; [done|]. by left.
    + by rewrite H4.
    + by rewrite H5.
    + congruence.
  - rewrite Htm in E. done.
  - injection E as <-. split_and!; [done| |done].
    intros v0. cbn. rewrite lookup_insert_ne; [apply Hoff|].
    intros ->. by apply (He v).
  - injection E as <-.
    assert (∀ l s0, Forall interval_guarded l → manual_sys s0 →
              manual_sys (foldl (λ s1 t, spawn t s1) s0 l)
              ∧ settings (host (foldl (λ s1 t, spawn t s1) s0 l))
                = settings (host s0)) as Hfold.
    { induction l as [|t l IH]; intros s0 Hl0 Hs0; [done|].
      apply Forall_cons in Hl0 as [Ht Hl0]. cbn [foldl].
      destruct (spawn_manual t s0 Ht Hs0) as (H1 & H2).
      destruct (IH (spawn t s0) Hl0 H1) as (H4 & H5).
      split; [done|congruence]. }
    destruct (Hfold (listeners (host s)) s Hl Hs) as (H1 & H2).
    split_and!; [done|by rewrite H2|done].
Qed.

Lemma run_manual es s s' :
  run es s = Some s' → interval_never_stored es →
  manual_sys s → interval_is_off (settings (host s)) →
  timers (host s') = [] ∧ ∀ i, Fire i ∉ es.
Proof.
  revert s. induction es as [|e es IH]; intros s; cbn [run].
  - intros [= <-] _ (_ & _ & _ & H) _. split; [done|]. intros i. apply not_elem_of_nil.
  - destruct (step e s) as [s1|] eqn:E; [|done]. cbn.
    intros H [He Hes]%Forall_cons Hs Hoff.
    destruct (step_manual e s s1 E He Hs Hoff) as (H1 & H2 & H3).
    destruct (IH s1 H Hes H1 H2) as [H4 H5]. split; [done|].
    intros i. apply not_elem_of_cons. split; [by apply not_eq_sym|done].
Qed.

Lemma started_manual (stored : gmap string Value) s0 :
  run startup (load stored) = Some s0 →
  interval_is_off (settings (host s0)) → manual_sys s0.
Proof.
  destruct (startup_state stored) as (v & Hv & ->). intros [= <-] Hoff.
  cbn in Hoff. split_and!; cbn.
  - apply Forall_singleton. by left.
  - unfold registered_commands. apply map_Forall_insert_2.
    { left. intros v0. cbn. by destruct (truthy v0). }
    apply map_Forall_insert_2; [|apply map_Forall_empty].
    left. intros z. destruct (Z.eqb z 0); cbn; [|done]. by split_and!.
  - apply Forall_singleton. right. eexists. split; [done|].
    intros v0 Hv0. cbn. by rewrite Hv0.
  - unfold timers_for. by rewrite (Hoff v Hv).
Qed.

Lemma interval_off_spec (m : gmap string Value) :
  interval_off m = true → interval_is_off m.
Proof.
  unfold interval_off, interval_is_off. intros H v Hv. rewrite Hv in H.
  by apply negb_true_iff.
Qed.

(** X17. A plugin started with an interval that is not positive stays
    manual as long as the interval is not stored anew: over any such
    sequence of events no timer is ever set, so no timer can fire. *)
Theorem manual_only_without_interval (stored : gmap string Value)
    (es : list Event) (s0 s : Sys) :
  run startup (load stored) = Some s0 →
  interval_off (settings (host s0)) = true →
  interval_untouched es = true →
  run es s0 = Some s →
  timers (host s) = [] ∧ ∀ i, Fire i ∉ es.
Proof.
  intros Hstart Hoff%interval_off_spec Hes%never_stores_spec Hrun.
  by apply (run_manual es s0 s Hrun Hes (started_manual stored s0 Hstart Hoff)).
Qed.

Lemma manual_only_without_interval_witness :
  timers
    (host (after [Write "omnivoreApiKey" (VString "k"); Changed; Settle 1 0;
                  Execute "syncOmnivoreArticles"; Settle 2 0] installed))
  = [].
Proof.
  destruct (manual_only_without_interval ∅
              [Write "omnivoreApiKey" (VString "k"); Changed; Settle 1 0;
               Execute "syncOmnivoreArticles"; Settle 2 0] installed
              (after [Write "omnivoreApiKey" (VString "k"); Changed; Settle 1 0;
                      Execute "syncOmnivoreArticles"; Settle 2 0] installed))
    as [H _]; [vm_compute; reflexivity..|].
  exact H.
Defined.
End Manual.

Section Interleaved.
Implicit Types (s : Sys) (h : Host) (t : Task) (m : gmap string Value).

Lemma run_app es1 es2 s : run (es1 ++ es2) s = run es1 s ≫= run es2.
Proof.
  revert s. induction es1 as [|e es1 IH]; intros s; cbn [app run]; [done|].
  destruct (step e s) as [s1|]; cbn; [apply IH|done].
Qed.

Lemma spawn_pool t s j t0 :
  pool s !! j = Some t0 → pool (spawn t s) !! j = Some t0.
Proof.
  intros Hj. unfold spawn. destruct (drive t (host s)) as [h t']. cbn.
  by apply lookup_app_l_Some.
Qed.

Lemma foldl_spawn_pool (l : list Task) s j t0 :
  pool s !! j = Some t0 → pool (foldl (λ s' t, spawn t s') s l) !! j = Some t0.
Proof.
  revert s. induction l as [|t l IH]; intros s Hj; cbn [foldl]; [done|].
  apply IH. by apply spawn_pool.
Qed.

(** Only the settling of its own call moves a task. *)
Lemma step_pool_other e s s' j t :
  step e s = Some s' → pool s !! j = Some t → (∀ a, e ≠ Settle j a) →
  pool s' !! j = Some t.
Proof.
  intros E Hj Hne. destruct e as [name|i a|i|key v|]; cbn [step] in E.
  - destruct (commands (host s) !! name); [|done]. injection E as <-.
    by apply spawn_pool.
  - destruct (pool s !! i) as [ti|]; [|done]. cbn in E.
    destruct (settle a ti (host s)) as [[h t']|]; [|done]. injection E as <-.
    cbn. rewrite list_lookup_insert_ne; [done|]. intros ->. by apply (Hne a).
  - destruct (timers (host s) !! i); [|done]. injection E as <-.
    by apply spawn_pool.
  - by injection E as <-.
  - injection E as <-. by apply foldl_spawn_pool.
Qed.

Lemma reset_writes_registered kv :
  kv ∈ reset_writes → first_install !! kv.1 = Some kv.2.
Proof.
  unfold reset_writes. rewrite !elem_of_cons, elem_of_nil.
  intros [->|[->|[->|[]]]]; vm_compute; reflexivity.
Qed.

(** A step of the running plugin other than a store of the key leaves a
    cleared sync-state setting cleared. *)
Lemma step_keeps_cleared e s s' key :
  step e s = Some s' → steady_sys s →
  stores key e = false →
  settings (host s) !! key = first_install !! key →
  settings (host s') !! key = first_install !! key.
Proof.
  intros E Hs Hw Hkey.
  destruct (step_steady e s s' E Hs) as (_ & _ & [(key' & v & ->)|Hstep]).
  - cbn [step] in E. injection E as <-. cbn.
    cbn [stores] in Hw. apply String.eqb_neq in Hw.
    by rewrite lookup_insert_ne.
  - destruct Hstep as [->|(kv & Hkv & ->)]; [done|].
    destruct (decide (kv.1 = key)) as [<-|Hne].
    + rewrite lookup_insert_eq. symmetry. by apply reset_writes_registered.
    + by rewrite lookup_insert_ne.
Qed.

Lemma untouched_stores e key :
  forallb (λ key, negb (stores key e)) sync_state_keys = true →
  key ∈ sync_state_keys → stores key e = false.
Proof.
  intros H Hkey. rewrite forallb_forall in H.
  apply negb_true_iff, H, list_elem_of_In, Hkey.
Qed.

(** The host settles the call the confirmed reset awaits: the reset moves
    to its next suspension point, and the key just written holds its
    registered value. *)
Lemma settle_reset_progress s s' j a t :
  step (Settle j a) s = Some s' → pool s !! j = Some t →
  reset_progress t (settings (host s)) →
  ∃ t', pool s' !! j = Some t' ∧ reset_progress t' (settings (host s')).
Proof.
  intros E Hj (keys & Hin & Hkeys). cbn [step] in E. rewrite Hj in E. cbn in E.
  assert (j < length (pool s))%nat as Hlt by (by eapply lookup_lt_Some).
  unfold reset_stages in Hin. rewrite !elem_of_cons, elem_of_nil in Hin.
  destruct Hin as [[= -> ->]|[[= -> ->]|[[= -> ->]|[[= -> ->]|[[= -> ->]|[]]]]]];
    cbn in E; try done; injection E as <-; cbn [pool host];
    rewrite list_lookup_insert_eq by done; eexists; (split; [done|]).
  - exists ["lastSyncDate"]. split; [apply list_elem_of_lookup; by exists 1%nat|].
    intros key ->%list_elem_of_singleton. cbn. by rewrite lookup_insert_eq.
  - exists ["lastSyncDate"; "syncedItems"].
    split; [apply list_elem_of_lookup; by exists 2%nat|].
    intros key. rewrite !elem_of_cons, elem_of_nil. cbn.
    intros [->|[->|[]]].
    + rewrite lookup_insert_ne by done. apply Hkeys. by apply list_elem_of_singleton.
    + by rewrite lookup_insert_eq.
  - exists sync_state_keys. split; [apply list_elem_of_lookup; by exists 3%nat|].
    intros key. unfold sync_state_keys. rewrite !elem_of_cons, elem_of_nil. cbn.
    intros [->|[->|[->|[]]]].
    + rewrite lookup_insert_ne by done. apply Hkeys.
      rewrite !elem_of_cons. by left.
    + rewrite lookup_insert_ne by done. apply Hkeys.
      rewrite !elem_of_cons. right. by left.
    + by rewrite lookup_insert_eq.
  - exists sync_state_keys. split; [apply list_elem_of_lookup; by exists 4%nat|].
    done.
Qed.

Lemma step_reset_progress e s s' j t :
  step e s = Some s' → steady_sys s →
  forallb (λ key, negb (stores key e)) sync_state_keys = true →
  pool s !! j = Some t → reset_progress t (settings (host s)) →
  ∃ t', pool s' !! j = Some t' ∧ reset_progress t' (settings (host s')).
Proof.
  intros E Hs Hw Hj Hprog.
  assert ((∃ a, e = Settle j a) ∨ ∀ a, e ≠ Settle j a) as [[a ->]|Hne].
  { destruct e as [|i a| | |]; try (by right).
    destruct (decide (i = j)) as [->|]; [left; by exists a|right; congruence]. }
  - by eapply settle_reset_progress.
  - exists t. split; [by eapply step_pool_other|].
    destruct Hprog as (keys & Hin & Hkeys). exists keys. split; [done|].
    intros key Hkey. eapply step_keeps_cleared; [done..| |by apply Hkeys].
    apply untouched_stores; [done|].
    unfold reset_stages in Hin. rewrite !elem_of_cons, elem_of_nil in Hin.
    unfold sync_state_keys. rewrite !elem_of_cons.
    destruct Hin as [[= -> ->]|[[= -> ->]|[[= -> ->]|[[= -> ->]|[[= -> ->]|[]]]]]];
      revert Hkey; unfold sync_state_keys;
      rewrite ?elem_of_cons, ?elem_of_nil; tauto.
Qed.

Lemma run_reset_progress es s s' j t :
  run es s = Some s' → steady_sys s →
  sync_state_untouched es = true →
  pool s !! j = Some t → reset_progress t (settings (host s)) →
  ∃ t', pool s' !! j = Some t' ∧ reset_progress t' (settings (host s')).
Proof.
  revert s t. induction es as [|e es IH]; intros s t; cbn [run].
  - intros [= <-] _ _ Hj Hp. by exists t.
  - destruct (step e s) as [s1|] eqn:E; [|done]. cbn [mbind option_bind].
    intros Hrun Hs Hw Hj Hp.
    cbn [sync_state_untouched forallb] in Hw. apply andb_prop in Hw as [Hw1 Hw2].
    destruct (step_reset_progress e s s1 j t E Hs Hw1 Hj Hp) as (t1 & Hj1 & Hp1).
    destruct (step_steady e s s1 E Hs) as (Hs1 & _).
    by apply (IH s1 t1).
Qed.

Lemma sync_state_registered m :
  (∀ key, key ∈ sync_state_keys → m !! key = first_install !! key) →
  sync_state m = sync_state first_install.
Proof.
  intros Hm. apply map_eq. intros key. apply option_eq. intros x.
  unfold sync_state. rewrite !map_lookup_filter_Some. cbn [fst].
  split; intros [H Hin]; (split; [|done]).
  - by rewrite <- Hm.
  - by rewrite Hm.
Qed.

Lemma sync_state_first_install :
  sync_state first_install
  = {[ "lastSyncDate" := VString ""; "syncedItems" := VString "[]";
       "syncedHighlights" := VString "{}" ]}.
Proof. vm_compute. reflexivity. Qed.

(** C6, as stated, fails: a sync run in progress that stores its cursor
    while the confirmed reset is writing keeps it; the reset runs to its
    end and the store does not hold the first-install sync state. *)
Lemma reset_overtaken_by_sync :
  run reset_during_sync (load synced_before) = Some reset_overtaken
  ∧ pool reset_overtaken = [Return; Return; Return]
  ∧ settings (host reset_overtaken) !! "lastSyncDate"
    = Some (VString "2024-06-01T00:00:00Z")
  ∧ sync_state (settings (host reset_overtaken)) ≠ sync_state first_install.
Proof.
  split_and!; try (vm_compute; reflexivity).
  intros E. apply (f_equal (λ m, m !! "lastSyncDate")) in E.
  vm_compute in E. discriminate E.
Qed.

(** C6 (amended). When the operator confirms the reset and nothing else
    stores [lastSyncDate], [syncedItems] or [syncedHighlights] from then
    on, then once the reset has run to its end, and at any later moment
    until one of the three is stored (the moment a later sync run starts
    included), the sync state in the store is that of a first
    installation: the three registered values, which is all a run can
    read of earlier runs. Whatever else happens in between (other tasks
    running, timers firing, other settings changing, another reset) does
    not matter; and a store whose other settings are the registered ones
    is the first-install store itself. *)
Theorem reset_restores_first_install (stored : gmap string Value)
    (es0 es : list Event) (s0 s : Sys) (j : nat) :
  run (startup ++ es0) (load stored) = Some s0 →
  pool s0 !! j = Some resetOmnivoreSyncData →
  run (Settle j 0 :: es) s0 = Some s →
  sync_state_untouched es = true →
  pool s !! j = Some Return →
  sync_state (settings (host s)) = sync_state first_install
  ∧ sync_state first_install
    = {[ "lastSyncDate" := VString ""; "syncedItems" := VString "[]";
         "syncedHighlights" := VString "{}" ]}
  ∧ sync_state (settings (host s)) = sync_state (settings (host installed))
  ∧ ((∀ key, key ∉ sync_state_keys →
             settings (host s) !! key = first_install !! key) →
     settings (host s) = first_install).
Proof.
  intros Hstart Hj Hrun Hw Hend.
  rewrite run_app in Hstart.
  destruct (run startup (load stored)) as [s00|] eqn:E0; [|done].
  cbn [mbind option_bind] in Hstart.
  destruct (run_steady es0 s00 s0 Hstart (started_steady stored s00 E0)) as [Hs0 _].
  cbn [run] in Hrun.
  destruct (step (Settle j 0) s0) as [s1|] eqn:E1; [|done].
  cbn [mbind option_bind] in Hrun.
  destruct (step_steady _ _ _ E1 Hs0) as (Hs1 & _).
  assert (pool s1 !! j = Some reset_write1
          ∧ settings (host s1) = settings (host s0)) as [Hj1 Hset1].
  { assert (j < length (pool s0))%nat as Hlt by (by eapply lookup_lt_Some).
    cbn [step] in E1. rewrite Hj in E1. cbn in E1. injection E1 as <-.
    cbn. by rewrite list_lookup_insert_eq. }
  destruct (run_reset_progress es s1 s j reset_write1 Hrun Hs1 Hw Hj1)
    as (t & Hjt & keys & Hin & Hkeys).
  { exists []. split; [apply list_elem_of_lookup; by exists 0%nat|].
    intros key Hkey. by apply elem_of_nil in Hkey. }
  rewrite Hend in Hjt. injection Hjt as <-.
  assert (keys = sync_state_keys) as ->.
  { unfold reset_stages in Hin. rewrite !elem_of_cons, elem_of_nil in Hin.
    by destruct Hin as [[=]|[[=]|[[=]|[[=]|[[= ->]|[]]]]]]. }
  assert (sync_state (settings (host s)) = sync_state first_install) as Hstate
    by (by apply sync_state_registered).
  split_and!.
  - done.
  - apply sync_state_first_install.
  - rewrite Hstate. vm_compute. reflexivity.
  - intros Hcfg. apply map_eq. intros key.
    destruct (decide (key ∈ sync_state_keys)); auto.
Qed.

Lemma reset_restores_first_install_witness :
  sync_state (settings (host (after reset_undisturbed reset_asked)))
  = sync_state first_install
  ∧ sync_state (settings (host (after reset_undisturbed reset_asked)))
    = sync_state (settings (host installed))
  ∧ last (actions (host (after reset_undisturbed reset_asked)))
    = Some (SyncStarted {| apiKey := VString "k" |}).
Proof.
  destruct (reset_restores_first_install synced_before
              [Execute "syncOmnivoreArticles"; Settle 1 0;
               Execute "resetOmnivoreSyncData"]
              (List.tl reset_undisturbed)
              reset_asked (after reset_undisturbed reset_asked) 2)
    as (H1 & _ & H3 & _); [vm_compute; reflexivity..|].
  split_and!; [exact H1|exact H3|vm_compute; reflexivity].
Defined.

End Interleaved.

End PluginMore.
